(** * kindle_to_anki: the dictionary lookup client

    A shallow embedding of [src/dictionary_service.py]: the sliding-window
    [RateLimiter], the retry loop of [DictionaryService.get_definition], the
    batch operation [get_definitions] and the JSON walk of
    [_extract_definition], followed by the properties the specification
    states about them.

    Modelling conventions.
    - A Python [str] is a [string] whose characters are read as the code
      points 0..255.
    - Clock values and durations ([time.time()], [time.sleep]) are exact
      rationals; rounding of binary floating point is not modelled.
    - Python exceptions are values of [exn]; a computation yields a
      [result], and a mutation performed before a raise stays performed. *)

From Stdlib Require Import ZArith QArith List Sorted String Ascii Bool Lia Lqa.
Import ListNotations.

Set Warnings "-register-all".

Local Open Scope string_scope.
Local Open Scope list_scope.

(* ------------------------------------------------------------------ *)
(** ** Python strings *)

Module PyStr.

Definition code (c : ascii) : N := N_of_ascii c.

(** [str.isspace] on one character, for code points below 256:
    TAB..CR, FS..US, SPACE, NEL (0x85) and NBSP (0xA0). *)
Definition is_space (c : ascii) : bool :=
  let n := code c in
  ((9 <=? n) && (n <=? 13) || (28 <=? n) && (n <=? 32)
   || (n =? 133) || (n =? 160))%N.

Fixpoint lstrip (s : string) : string :=
  match s with
  | EmptyString => EmptyString
  | String c r => if is_space c then lstrip r else s
  end.

Fixpoint rstrip (s : string) : string :=
  match s with
  | EmptyString => EmptyString
  | String c r =>
      match rstrip r with
      | EmptyString => if is_space c then EmptyString else String c EmptyString
      | r' => String c r'
      end
  end.

(** [s.strip()] *)
Definition strip (s : string) : string := rstrip (lstrip s).

(** [str.lower] on one character: A..Z and the Latin-1 capitals
    0xC0..0xDE (the multiplication sign 0xD7 apart) move up by 32. *)
Definition lower_char (c : ascii) : ascii :=
  let n := code c in
  if ((65 <=? n) && (n <=? 90)
      || (192 <=? n) && (n <=? 222) && negb (n =? 215))%N
  then ascii_of_N (n + 32) else c.

(** [s.lower()] *)
Fixpoint lower (s : string) : string :=
  match s with
  | EmptyString => EmptyString
  | String c r => String (lower_char c) (lower r)
  end.

(** Truth value of a string: [bool(s)]. *)
Definition nonempty (s : string) : bool :=
  match s with EmptyString => false | String _ _ => true end.

(** [sub in s] for two strings. *)
Fixpoint contains (sub s : string) : bool :=
  prefix sub s
  || match s with
     | EmptyString => false
     | String _ r => contains sub r
     end.

Definition hex_digit (n : N) : ascii :=
  match get (N.to_nat n) "0123456789ABCDEF" with
  | Some c => c
  | None => "0"%char
  end.

(** ["%XX"] for one byte. *)
Definition percent (b : N) : string :=
  String "%" (String (hex_digit (b / 16)) (String (hex_digit (b mod 16)) EmptyString)).

(** The bytes [urllib.parse.quote] leaves alone with its default
    [safe="/"]: letters, digits, [_ . - ~] and [/]. *)
Definition unreserved (c : ascii) : bool :=
  let n := code c in
  ((65 <=? n) && (n <=? 90) || (97 <=? n) && (n <=? 122)
   || (48 <=? n) && (n <=? 57)
   || (n =? 95) || (n =? 46) || (n =? 45) || (n =? 126) || (n =? 47))%N.

(** [urllib.parse.quote(s)]: the UTF-8 bytes of [s], percent-encoded
    unless unreserved.  A code point in 128..255 takes two bytes. *)
Fixpoint quote (s : string) : string :=
  match s with
  | EmptyString => EmptyString
  | String c r =>
      let n := code c in
      ((if unreserved c then String c EmptyString
       else if (n <? 128)%N then percent n
       else percent (192 + n / 64) ++ percent (128 + n mod 64))
      ++ quote r)%string
  end.

(** A string made of whitespace only (the empty string included). *)
Fixpoint blank (s : string) : bool :=
  match s with
  | EmptyString => true
  | String c r => is_space c && blank r
  end.

End PyStr.

(* ------------------------------------------------------------------ *)
(** ** Python values and exceptions *)

(** What [response.json()] can produce.  A dict is kept as an association
    list read by first match; its keys are strings, as JSON decoding makes
    them. *)
Inductive pyval : Type :=
| PNone
| PBool (b : bool)
| PInt (n : Z)
| PFloat (x : Q)
| PStr (s : string)
| PList (l : list pyval)
| PDict (d : list (string * pyval)).

(** The exceptions the module raises or lets through.  [RequestException]
    stands for [requests.RequestException] and its subclasses; [response]
    is [e.response.status_code] when [e.response] is not [None].
    [DictionaryServiceError] carries the three values interpolated into its
    message: the word, [max_retries + 1] and [last_exception]. *)
Inductive exn : Type :=
| KeyError
| IndexError
| TypeError
| ValueError (msg : string)
| RequestException (msg : string) (response : option Z)
| DictionaryServiceError (word : string) (attempts : Z) (last_exception : option exn)
| OtherException (name : string).

Inductive result (A : Type) : Type :=
| Return (a : A)
| Raise (e : exn).
Arguments Return {A} a.
Arguments Raise {A} e.

Definition rbind {A B} (r : result A) (k : A -> result B) : result B :=
  match r with
  | Return a => k a
  | Raise e => Raise e
  end.

Notation "'let?' x ':=' c 'in' k" := (rbind c (fun x => k))
  (at level 10, x name, c at level 100, k at level 200).

Module Py.

(** [bool(v)] *)
Definition truthy (v : pyval) : bool :=
  match v with
  | PNone => false
  | PBool b => b
  | PInt n => negb (n =? 0)%Z
  | PFloat x => negb (Qeq_bool x 0)
  | PStr s => PyStr.nonempty s
  | PList l => match l with [] => false | _ :: _ => true end
  | PDict d => match d with [] => false | _ :: _ => true end
  end.

(** [isinstance(v, list)] *)
Definition is_list (v : pyval) : bool :=
  match v with PList _ => true | _ => false end.

Fixpoint lookup (k : string) (d : list (string * pyval)) : option pyval :=
  match d with
  | [] => None
  | (k', v) :: r => if String.eqb k k' then Some v else lookup k r
  end.

Definition is_str (k : string) (v : pyval) : bool :=
  match v with PStr s => String.eqb k s | _ => false end.

(** [k in v] for a string [k]: key test on a dict, substring test on a
    string, element test on a list, [TypeError] on anything else. *)
Definition contains (k : string) (v : pyval) : result bool :=
  match v with
  | PDict d => Return (match lookup k d with Some _ => true | None => false end)
  | PStr s => Return (PyStr.contains k s)
  | PList l => Return (existsb (is_str k) l)
  | _ => Raise TypeError
  end.

(** [v[k]] for a string [k]. *)
Definition getitem (v : pyval) (k : string) : result pyval :=
  match v with
  | PDict d => match lookup k d with Some x => Return x | None => Raise KeyError end
  | _ => Raise TypeError
  end.

(** [v[0]] *)
Definition getitem0 (v : pyval) : result pyval :=
  match v with
  | PList (x :: _) => Return x
  | PList [] => Raise IndexError
  | PStr (String c _) => Return (PStr (String c EmptyString))
  | PStr EmptyString => Raise IndexError
  | PDict _ => Raise KeyError
  | _ => Raise TypeError
  end.

End Py.

(* ------------------------------------------------------------------ *)
(** ** [DictionaryService._extract_definition] *)

(** The body of the [try]. *)
Definition _extract_definition_body (data : pyval) : result pyval :=
  if negb (Py.truthy data) || negb (Py.is_list data) then Return PNone
  else
    let? entry := Py.getitem0 data in
    let? has_meanings := Py.contains "meanings" entry in
    let? meanings_ok :=
      (if has_meanings
       then let? m := Py.getitem entry "meanings" in Return (Py.truthy m)
       else Return false) in
    if meanings_ok then
      let? meanings := Py.getitem entry "meanings" in
      let? meaning := Py.getitem0 meanings in
      let? has_definitions := Py.contains "definitions" meaning in
      let? definitions_ok :=
        (if has_definitions
         then let? d := Py.getitem meaning "definitions" in Return (Py.truthy d)
         else Return false) in
      if definitions_ok then
        let? definitions := Py.getitem meaning "definitions" in
        let? definition_obj := Py.getitem0 definitions in
        let? has_definition := Py.contains "definition" definition_obj in
        if has_definition then Py.getitem definition_obj "definition"
        else Return PNone
      else Return PNone
    else Return PNone.

(** [except (KeyError, IndexError, TypeError): return None] *)
Definition _extract_definition (data : pyval) : result pyval :=
  match _extract_definition_body data with
  | Raise KeyError | Raise IndexError | Raise TypeError => Return PNone
  | r => r
  end.

(** The path the specification describes, written after its words: the
    first entry of the list, the first meaning group of that entry, the
    first definition object of that group, and its [definition] field. *)
Definition first_object (v : pyval) : option (list (string * pyval)) :=
  match v with
  | PList (PDict d :: _) => Some d
  | _ => None
  end.

Definition definition_path (data : pyval) : option pyval :=
  match first_object data with
  | Some entry =>
      match Py.lookup "meanings" entry with
      | Some meanings =>
          match first_object meanings with
          | Some meaning =>
              match Py.lookup "definitions" meaning with
              | Some definitions =>
                  match first_object definitions with
                  | Some definition_obj => Py.lookup "definition" definition_obj
                  | None => None
                  end
              | None => None
              end
          | None => None
          end
      | None => None
      end
  | None => None
  end.


(* ------------------------------------------------------------------ *)
(** ** The world outside the module *)

(** What a spy on the three effectful callees records: an entry into
    [RateLimiter.wait_if_needed], a [time.sleep(d)], a [session.get(url)]. *)
Inductive event : Type :=
| EvAcquire
| EvSleep (d : Q)
| EvGet (url : string).

(** A response object as the code reads it: its [status_code], what
    [raise_for_status()] does ([None]: returns) and what [json()] does. *)
Record Response : Type := mkResponse {
  status_code : Z;
  raise_for_status : option exn;
  json : result pyval
}.

Inductive get_outcome : Type :=
| GetRaises (e : exn)
| GetReturns (r : Response).

(** [clock] is the current time.  [lags] holds the time that goes by before
    each coming reading of the clock (none left: no time goes by); a sleep
    lasts its argument, and any oversleeping is part of the next lag.
    [transport n url] is what the [n]-th call of [session.get] does. *)
Record World : Type := mkWorld {
  clock : Q;
  lags : list Q;
  transport : nat -> string -> get_outcome;
  get_calls : nat;
  trace : list event
}.

Record RateLimiter : Type := mkRateLimiter {
  max_requests_per_second : Z;
  request_times : list Q
}.

Record DictionaryService : Type := mkDictionaryService {
  rate_limiter : RateLimiter;
  max_retries : Z
}.

(** ** Computations on an object of type [St] in the world *)

Definition M (St A : Type) : Type := St * World -> result A * (St * World).

Definition ret {St A} (a : A) : M St A := fun st => (Return a, st).

Definition raise {St A} (e : exn) : M St A := fun st => (Raise e, st).

Definition bind {St A B} (c : M St A) (k : A -> M St B) : M St B :=
  fun st =>
    match c st with
    | (Return a, st') => k a st'
    | (Raise e, st') => (Raise e, st')
    end.

(** [try: c  except Exception as e: h e] *)
Definition try_except {St A} (c : M St A) (h : exn -> M St A) : M St A :=
  fun st =>
    match c st with
    | (Return a, st') => (Return a, st')
    | (Raise e, st') => h e st'
    end.

Definition lift {St A} (r : result A) : M St A := fun st => (r, st).

Definition self {St} : M St St := fun st => (Return (fst st), st).

Definition set_self {St} (s : St) : M St unit := fun st => (Return tt, (s, snd st)).

Declare Scope py_scope.
Delimit Scope py_scope with py.
Notation "x <- c ;; k" := (bind c (fun x => k))
  (at level 61, c at next level, right associativity) : py_scope.
Notation "c ;; k" := (bind c (fun _ => k))
  (at level 61, right associativity) : py_scope.
Local Open Scope py_scope.

Definition Qltb (x y : Q) : bool := negb (Qle_bool y x).

Definition note (ev : event) (w : World) : World :=
  mkWorld (clock w) (lags w) (transport w) (get_calls w) (trace w ++ [ev]).

(** [time.time()] *)
Definition time_time {St} : M St Q :=
  fun '(s, w) =>
    let t := clock w + hd 0 (lags w) in
    (Return t, (s, mkWorld t (tl (lags w)) (transport w) (get_calls w) (trace w))).

(** [time.sleep(d)] *)
Definition slept (d : Q) (w : World) : World :=
  note (EvSleep d)
    (mkWorld (clock w + d) (lags w) (transport w) (get_calls w) (trace w)).

Definition time_sleep {St} (d : Q) : M St unit :=
  fun '(s, w) => (Return tt, (s, slept d w)).

(** [self.session.get(url)] *)
Definition sent (url : string) (w : World) : World :=
  note (EvGet url)
    (mkWorld (clock w) (lags w) (transport w) (S (get_calls w)) (trace w)).

Definition session_get {St} (url : string) : M St Response :=
  fun '(s, w) =>
    match transport w (get_calls w) url with
    | GetRaises e => (Raise e, (s, sent url w))
    | GetReturns r => (Return r, (s, sent url w))
    end.

(** [response.raise_for_status()] *)
Definition call_raise_for_status {St} (r : Response) : M St unit :=
  match raise_for_status r with
  | Some e => raise e
  | None => ret tt
  end.

(* ------------------------------------------------------------------ *)
(** ** [RateLimiter] *)

(** [RateLimiter(max_requests_per_second)] *)
Definition RateLimiter_init (max_requests_per_second : Z) : RateLimiter :=
  mkRateLimiter max_requests_per_second [].

(** The [while] loop: [popleft] as long as the oldest entry is at least one
    second old. *)
Fixpoint prune (current_time : Q) (times : list Q) : list Q :=
  match times with
  | [] => []
  | t :: rest =>
      if Qle_bool 1 (current_time - t) then prune current_time rest else times
  end.

Definition wait_if_needed : M RateLimiter unit :=
  (fun '(rl, w) => (Return tt, (rl, note EvAcquire w))) ;;
  current_time <- time_time ;;
  rl <- self ;;
  set_self (mkRateLimiter (max_requests_per_second rl)
              (prune current_time (request_times rl))) ;;
  rl <- self ;;
  (if (max_requests_per_second rl <=? Z.of_nat (List.length (request_times rl)))%Z
   then
     match request_times rl with
     | [] => raise IndexError
     | oldest :: _ =>
         let sleep_time := 1 - (current_time - oldest) in
         if Qltb 0 sleep_time then time_sleep sleep_time else ret tt
     end
   else ret tt) ;;
  t <- time_time ;;
  rl <- self ;;
  set_self (mkRateLimiter (max_requests_per_second rl) (request_times rl ++ [t])).

(* ------------------------------------------------------------------ *)
(** ** [DictionaryService] *)

Definition base_url : string := "https://api.dictionaryapi.dev/api/v2/entries/en".

(** [DictionaryService(max_requests_per_second, max_retries)] *)
Definition DictionaryService_init (max_requests_per_second max_retries : Z)
  : DictionaryService :=
  mkDictionaryService (RateLimiter_init max_requests_per_second) max_retries.

Definition _clean_word (word : string) : string :=
  PyStr.strip (PyStr.lower word).

(** [self.rate_limiter.wait_if_needed()] *)
Definition limiter_wait : M DictionaryService unit :=
  fun '(svc, w) =>
    match wait_if_needed (rate_limiter svc, w) with
    | (r, (rl, w')) => (r, (mkDictionaryService rl (max_retries svc), w'))
    end.

(** [400 <= status_code < 500 and status_code != 429] *)
Definition client_error (status : Z) : bool :=
  ((400 <=? status) && (status <? 500) && negb (status =? 429))%Z.

Definition request_url (cleaned_word : string) : string :=
  (base_url ++ "/" ++ PyStr.quote cleaned_word)%string.

(** The body of the [try] in the retry loop; [Return] is the function's
    [return]. *)
Definition attempt_body (cleaned_word : string) : M DictionaryService pyval :=
  response <- session_get (request_url cleaned_word) ;;
  if (status_code response =? 404)%Z then ret PNone
  else
    (if client_error (status_code response)
     then call_raise_for_status response else ret tt) ;;
    call_raise_for_status response ;;
    data <- lift (json response) ;;
    definition <- lift (_extract_definition data) ;;
    ret definition.

(** [range(n)] *)
Definition range (n : Z) : list Z := map Z.of_nat (seq 0 (Z.to_nat n)).

(** The [raise DictionaryServiceError(...)] after the loop. *)
Definition lookup_failed (word : string) (last_exception : option exn)
  : M DictionaryService pyval :=
  svc <- self ;;
  raise (DictionaryServiceError word (max_retries svc + 1) last_exception).

(** [hasattr(e, "response") and e.response is not None and
     400 <= e.response.status_code < 500 and e.response.status_code != 429] *)
Definition carries_client_error (response : option Z) : bool :=
  match response with
  | Some status => client_error status
  | None => false
  end.

(** The [for attempt in range(self.max_retries + 1)] loop over the attempts
    still to run. *)
Fixpoint retry_loop (attempts : list Z) (word cleaned_word : string)
  (last_exception : option exn) : M DictionaryService pyval :=
  match attempts with
  | [] => lookup_failed word last_exception
  | attempt :: rest =>
      try_except (attempt_body cleaned_word)
        (fun e =>
           match e with
           | RequestException _ response =>
               if carries_client_error response then lookup_failed word (Some e)
               else
                 svc <- self ;;
                 if (attempt =? max_retries svc)%Z then lookup_failed word (Some e)
                 else
                   time_sleep (inject_Z (2 ^ attempt)) ;;
                   limiter_wait ;;
                   retry_loop rest word cleaned_word (Some e)
           | _ => raise e
           end)
  end.

Definition get_definition (word : option string) : M DictionaryService pyval :=
  match word with
  | None => raise (ValueError "Word cannot be None")
  | Some word =>
      if negb (PyStr.nonempty (PyStr.strip word))
      then raise (ValueError "Word cannot be empty")
      else
        let cleaned_word := _clean_word word in
        limiter_wait ;;
        svc <- self ;;
        retry_loop (range (max_retries svc + 1)) word cleaned_word None
  end.

(** The argument of [get_definitions]: a list, or something else. *)
Inductive words_arg : Type :=
| WordList (words : list (option string))
| NotAList.

(** The [for word in words] loop, with the list built so far. *)
Fixpoint collect (words : list (option string)) (definitions : list pyval)
  : M DictionaryService (list pyval) :=
  match words with
  | [] => ret definitions
  | word :: rest =>
      definitions' <-
        try_except
          (definition <- get_definition word ;; ret (definitions ++ [definition]))
          (fun e =>
             match e with
             | DictionaryServiceError _ _ _ => ret (definitions ++ [PNone])
             | _ => raise e
             end) ;;
      collect rest definitions'
  end.

Definition get_definitions (words : words_arg) : M DictionaryService (list pyval) :=
  match words with
  | NotAList => raise (ValueError "Words must be a list")
  | WordList words => collect words []
  end.

(* ------------------------------------------------------------------ *)
(** ** Vocabulary of the statements *)

(** A response as the [requests] library builds it: [raise_for_status()]
    raises an [HTTPError] that carries the response when the status is in
    400..599, and returns otherwise. *)
Definition http_response (status : Z) (reason : string) (body : result pyval)
  : Response :=
  mkResponse status
    (if ((400 <=? status) && (status <? 600))%Z
     then Some (RequestException reason (Some status)) else None)
    body.

(** The retryable outcomes of an attempt, as the specification lists them:
    a 5xx status, the status 429, a failure of the transport itself. *)
Inductive retryable_outcome : get_outcome -> Prop :=
| Retryable_server_error status reason body :
    (500 <= status < 600)%Z ->
    retryable_outcome (GetReturns (http_response status reason body))
| Retryable_rate_limit reason body :
    retryable_outcome (GetReturns (http_response 429 reason body))
| Retryable_transport reason :
    retryable_outcome (GetRaises (RequestException reason None)).

(** The exception an outcome ends in, if any. *)
Definition failure_of (o : get_outcome) : option exn :=
  match o with
  | GetRaises e => Some e
  | GetReturns r => raise_for_status r
  end.

(** What the [try] body makes of an outcome of [session.get]. *)
Definition attempt_result (o : get_outcome) : result pyval :=
  match o with
  | GetRaises e => Raise e
  | GetReturns r =>
      if (status_code r =? 404)%Z then Return PNone
      else
        match raise_for_status r with
        | Some e => Raise e
        | None => rbind (json r) _extract_definition
        end
  end.

(** The exception of an outcome that the [except] clause answers with a
    retry: a [RequestException] without a 4xx status other than 429. *)
Definition retry_cause (o : get_outcome) : option exn :=
  match attempt_result o with
  | Raise (RequestException msg response) =>
      if carries_client_error response then None
      else Some (RequestException msg response)
  | _ => None
  end.

(** What one call of the limiter adds to the trace. *)
Definition limiter_trace (t : list event) : Prop :=
  t = [EvAcquire] \/ exists d, (0 < d)%Q /\ t = [EvAcquire; EvSleep d].

(** [a; a+1; ...], [n] numbers. *)
Fixpoint range_from (a : Z) (n : nat) : list Z :=
  match n with
  | O => []
  | S k => a :: range_from (a + 1) k
  end.

(** [None], the empty string, or whitespace only. *)
Definition invalid_word (word : option string) : bool :=
  match word with
  | None => true
  | Some s => PyStr.blank s
  end.

(** The error [get_definition] raises for an invalid word. *)
Definition invalid_word_error (word : option string) : exn :=
  match word with
  | None => ValueError "Word cannot be None"
  | Some _ => ValueError "Word cannot be empty"
  end.

(** Every word looked up in turn, each from the state its predecessor
    left, whatever the outcomes. *)
Fixpoint lookups (words : list (option string))
  : DictionaryService * World -> list (result pyval) * (DictionaryService * World) :=
  fun st =>
    match words with
    | [] => ([], st)
    | word :: rest =>
        let '(r, st1) := get_definition word st in
        let '(rs, st2) := lookups rest st1 in
        (r :: rs, st2)
    end.

(** The outcomes a batch survives: a return, or a [DictionaryServiceError]. *)
Definition survivable (r : result pyval) : Prop :=
  match r with
  | Return _ => True
  | Raise (DictionaryServiceError _ _ _) => True
  | Raise _ => False
  end.

(** The results of a [try] body that the loop answers itself or that the
    batch catches. *)
Definition survivable_attempt (r : result pyval) : Prop :=
  match r with
  | Return _ => True
  | Raise (RequestException _ _) => True
  | Raise (DictionaryServiceError _ _ _) => True
  | Raise _ => False
  end.

(** An outcome of [session.get] that a lookup survives: the [try] body
    returns, or it fails with a [RequestException] (or, should a transport
    raise it, a [DictionaryServiceError]). *)
Definition tame (o : get_outcome) : Prop := survivable_attempt (attempt_result o).

(** The slot of the result list for an outcome. *)
Definition slot (r : result pyval) : pyval :=
  match r with
  | Return v => v
  | Raise _ => PNone
  end.

(** What a returning call of the limiter changes, seen from the service:
    the configuration, the transport and the count of requests stay, and
    the trace grows by one limiter call. *)
Definition acquired (st st' : DictionaryService * World) : Prop :=
  max_retries (fst st') = max_retries (fst st)
  /\ max_requests_per_second (rate_limiter (fst st'))
     = max_requests_per_second (rate_limiter (fst st))
  /\ transport (snd st') = transport (snd st)
  /\ get_calls (snd st') = get_calls (snd st)
  /\ exists acq, limiter_trace acq /\ trace (snd st') = trace (snd st) ++ acq.

(* ------------------------------------------------------------------ *)
(** ** Scenarios of the test suite *)

Module Scenario.

(** [DictionaryService()], with the defaults 10 and 3. *)
Definition service : DictionaryService := DictionaryService_init 10 3.

(** A world at time 0 in which no time goes by on its own. *)
Definition world (tr : nat -> string -> get_outcome) : World :=
  mkWorld 0 [] tr 0 [].

Definition test_definition : pyval :=
  PList [PDict [("meanings",
    PList [PDict [("definitions",
      PList [PDict [("definition", PStr "test definition")]])]])]].

(** Every request is answered with 503. *)
Definition unavailable (n : nat) (url : string) : get_outcome :=
  GetReturns (http_response 503 "Service unavailable" (Return PNone)).

(** Two answers 503, then 200 with a definition. *)
Definition recovers (n : nat) (url : string) : get_outcome :=
  match n with
  | 0%nat | 1%nat => unavailable n url
  | _ => GetReturns (http_response 200 "OK" (Return test_definition))
  end.

(** Every request is answered with 400, the response built by [requests]. *)
Definition bad_request (n : nat) (url : string) : get_outcome :=
  GetReturns (http_response 400 "Bad request" (Return PNone)).

(** Every request is answered with the mock of
    [test_retry_logic_does_not_retry_on_400]: status 400, and a
    [raise_for_status] raising [HTTPError("Bad request")], an exception
    that carries no response. *)
Definition mocked_bad_request (n : nat) (url : string) : get_outcome :=
  GetReturns (mkResponse 400 (Some (RequestException "Bad request" None))
                (Return PNone)).

(** Every request is answered with 404. *)
Definition not_found (n : nat) (url : string) : get_outcome :=
  GetReturns (http_response 404 "Not Found" (Return PNone)).

(** ["bad"] is answered with 400, any other word with a definition. *)
Definition bad_word (n : nat) (url : string) : get_outcome :=
  if String.eqb url (request_url "bad") then bad_request n url
  else GetReturns (http_response 200 "OK" (Return test_definition)).

(** A world in which a tenth of a second goes by before each call of the
    limiter, and none inside it. *)
Definition burst : World :=
  mkWorld 0 [1#10; 0; 1#10; 0; 1#10; 0; 1#10; 0; 1#10; 0]%Q unavailable 0 [].

End Scenario.

(* ------------------------------------------------------------------ *)
(** ** Further scenarios *)

Module MoreScenarios.

(** Every request is answered with 200 and a body that [json()] refuses
    with an exception that is no [RequestException]. *)
Definition garbled (n : nat) (url : string) : get_outcome :=
  GetReturns (http_response 200 "OK" (Raise (OtherException "ValueError"))).

(** [DictionaryService(max_retries=-1)] *)
Definition no_attempts : DictionaryService := DictionaryService_init 10 (-1).

(** [DictionaryService(max_requests_per_second=0)] *)
Definition no_room : DictionaryService := DictionaryService_init 0 3.

End MoreScenarios.

(* ------------------------------------------------------------------ *)
(** ** Runs of the rate limiter *)

(** [n] calls of [wait_if_needed] one after the other, with the timestamp
    each call recorded (the entry it appended), oldest first. *)
Fixpoint acquire_times (n : nat) : M RateLimiter (list Q) :=
  match n with
  | O => ret []
  | S k =>
      wait_if_needed ;;
      rl <- self ;;
      later <- acquire_times k ;;
      ret (last (request_times rl) 0 :: later)
  end.

(** [t] lies in the one-second window that ends at [T]: [T - 1 < t <= T].
    An entry exactly one second old is outside, as in the pruning test of
    [wait_if_needed]. *)
Definition in_window (T t : Q) : bool := Qle_bool t T && Qltb (T - t) 1.

Definition count_window (T : Q) (times : list Q) : nat :=
  List.length (filter (in_window T) times).

(** What holds of a limiter between two calls.  [admitted] is every
    timestamp recorded so far; those no longer in [request_times] are at
    least one second old. *)
Record limiter_inv (ceiling : Z) (admitted : list Q)
  (rl : RateLimiter) (w : World) : Prop := {
  inv_ceiling : max_requests_per_second rl = ceiling;
  inv_lags : Forall (fun l => (0 <= l)%Q) (lags w);
  inv_sorted : StronglySorted Qle (request_times rl);
  inv_past : Forall (fun t => (t <= clock w)%Q) (request_times rl);
  inv_gone : exists old, admitted = old ++ request_times rl
                         /\ Forall (fun t => (1 <= clock w - t)%Q) old;
  inv_count : (Z.of_nat (count_window (clock w) (request_times rl)) <= ceiling)%Z
}.

(* ------------------------------------------------------------------ *)
(** ** [CSVExporter] of [src/anki_importer.py]: the word and definition of a row *)

(** [re.sub(r"\s+", " ", s)]: every maximal run of whitespace becomes one
    space.  [after_space] tells that the run under way has been replaced
    already.  The class [\s] of a [str] pattern is [str.isspace]. *)
Fixpoint squeeze (after_space : bool) (s : string) : string :=
  match s with
  | EmptyString => EmptyString
  | String c r =>
      if PyStr.is_space c
      then if after_space then squeeze true r else String " " (squeeze true r)
      else String c (squeeze false r)
  end.

Definition _clean_word_for_csv (word : string) : string :=
  squeeze false (PyStr.strip word).

(** The [for word in words] loop of [_validate_words]. *)
Fixpoint validate_each (words : list pyval) : result unit :=
  match words with
  | [] => Return tt
  | PStr word :: rest =>
      if negb (PyStr.nonempty (PyStr.strip word))
      then Raise (ValueError "Words cannot be empty")
      else validate_each rest
  | _ :: _ => Raise (ValueError "All words must be strings")
  end.

Definition _validate_words (words : pyval) : result unit :=
  match words with
  | PList words => validate_each words
  | _ => Raise (ValueError "Words must be a list")
  end.

Record CSVExporter : Type := mkCSVExporter {
  output_dir : string;
  use_dictionary : bool;
  dictionary_service : option DictionaryService
}.

(** [CSVExporter(output_dir, use_dictionary)], where [cwd] is what
    [os.getcwd()] returns. *)
Definition CSVExporter_init (output_dir : option string) (use_dictionary : bool)
  (cwd : string) : CSVExporter :=
  mkCSVExporter
    (match output_dir with
     | Some dir => if PyStr.nonempty dir then dir else cwd
     | None => cwd
     end)
    use_dictionary
    (if use_dictionary then Some (DictionaryService_init 10 3) else None).

(** [CSVExporter._get_definition].  The service object is shared with the
    exporter, so what a lookup does to it stays done. *)
Definition _get_definition (word : string) : M CSVExporter pyval :=
  fun '(exporter, w) =>
    match dictionary_service exporter with
    | Some svc =>
        if negb (use_dictionary exporter)
        then (Return (PStr ("Definition of " ++ word)), (exporter, w))
        else
          match get_definition (Some word) (svc, w) with
          | (Return definition, (svc', w')) =>
              (Return (if Py.truthy definition then definition
                       else PStr ("Definition not found for " ++ word)),
               (mkCSVExporter (output_dir exporter) (use_dictionary exporter)
                  (Some svc'), w'))
          | (Raise (DictionaryServiceError _ _ _), (svc', w')) =>
              (Return (PStr ("Definition of " ++ word ++ " (API unavailable)")),
               (mkCSVExporter (output_dir exporter) (use_dictionary exporter)
                  (Some svc'), w'))
          | (Raise e, (svc', w')) =>
              (Raise e,
               (mkCSVExporter (output_dir exporter) (use_dictionary exporter)
                  (Some svc'), w'))
          end
    | None => (Return (PStr ("Definition of " ++ word)), (exporter, w))
    end%string.

(** A string in which whitespace occurs only as single spaces;
    [after_space] tells that the character before was one. *)
Fixpoint single_spaced (after_space : bool) (s : string) : bool :=
  match s with
  | EmptyString => true
  | String c r =>
      if PyStr.is_space c
      then Ascii.eqb c " " && negb after_space && single_spaced true r
      else single_spaced false r
  end.

(** A value [_validate_words] accepts as a word. *)
Definition is_word (v : pyval) : bool :=
  match v with
  | PStr word => negb (PyStr.blank word)
  | _ => false
  end.

(* ------------------------------------------------------------------ *)
(** ** Further vocabulary *)

(** Every sleep of a trace is positive and lasts at most one second. *)
Definition short_sleeps (t : list event) : Prop :=
  Forall (fun ev => match ev with
                    | EvSleep d => (0 < d)%Q /\ (d <= 1)%Q
                    | _ => True
                    end) t.

(** From [st] to [st'] at most [k] requests were sent, and the
    configuration and the transport are as before. *)
Definition within (k : nat) (st st' : DictionaryService * World) : Prop :=
  (get_calls (snd st) <= get_calls (snd st') <= get_calls (snd st) + k)%nat
  /\ max_retries (fst st') = max_retries (fst st)
  /\ max_requests_per_second (rate_limiter (fst st'))
     = max_requests_per_second (rate_limiter (fst st))
  /\ transport (snd st') = transport (snd st).

(** [isinstance(e, requests.RequestException)] *)
Definition is_request_exception (e : exn) : bool :=
  match e with
  | RequestException _ _ => true
  | _ => false
  end.

(** Two outcomes that agree, or that are the [DictionaryServiceError] of
    the same failure raised for the words [w1] and [w2]. *)
Definition same_but_word (w1 w2 : string) (r1 r2 : result pyval) : Prop :=
  r1 = r2
  \/ exists attempts cause,
       r1 = Raise (DictionaryServiceError w1 attempts cause)
       /\ r2 = Raise (DictionaryServiceError w2 attempts cause).

(** Reading a trace for requests that were let through: [allowed] tells
    that the limiter has been called since the last request.  A request
    needs it, and uses it up. *)
Fixpoint gated (allowed : bool) (t : list event) : bool :=
  match t with
  | [] => true
  | EvAcquire :: rest => gated true rest
  | EvSleep _ :: rest => gated allowed rest
  | EvGet _ :: rest => allowed && gated false rest
  end.

(** Whether a request is allowed after the trace [t]. *)
Fixpoint gate_after (allowed : bool) (t : list event) : bool :=
  match t with
  | [] => allowed
  | EvAcquire :: rest => gate_after true rest
  | EvSleep _ :: rest => gate_after allowed rest
  | EvGet _ :: rest => gate_after false rest
  end.

(* ------------------------------------------------------------------ *)
(** * Properties *)

(** ** Stripping *)

Lemma lstrip_blank s : PyStr.blank s = true -> PyStr.lstrip s = EmptyString.
Proof.
  induction s as [|c r IH]; simpl; [reflexivity|].
  intros H. apply andb_true_iff in H as [Hc Hr]. rewrite Hc. auto.
Qed.

Lemma lstrip_head s :
  match PyStr.lstrip s with
  | EmptyString => PyStr.blank s = true
  | String c _ => PyStr.is_space c = false
  end.
Proof.
  induction s as [|c r IH]; simpl; [reflexivity|].
  destruct (PyStr.is_space c) eqn:Ec; simpl; [|exact Ec].
  destruct (PyStr.lstrip r); auto.
Qed.

Lemma rstrip_keeps_head c r :
  PyStr.is_space c = false -> PyStr.rstrip (String c r) <> EmptyString.
Proof.
  intros Hc. simpl. destruct (PyStr.rstrip r); [rewrite Hc|]; discriminate.
Qed.

(** [not word.strip()] holds exactly for the PyStr.blank strings. *)
Lemma strip_empty_iff s : PyStr.nonempty (PyStr.strip s) = false <-> PyStr.blank s = true.
Proof.
  unfold PyStr.strip. split.
  - intros H. pose proof (lstrip_head s) as Hh.
    destruct (PyStr.lstrip s) as [|c r] eqn:E; [exact Hh|].
    pose proof (rstrip_keeps_head c r Hh) as Hne.
    destruct (PyStr.rstrip (String c r)); [congruence | discriminate].
  - intros H. rewrite (lstrip_blank s H). reflexivity.
Qed.

(* ------------------------------------------------------------------ *)
(** ** Extraction: what [_extract_definition] returns *)

Section Extraction.

Ltac walk :=
  repeat (simpl in *; try reflexivity; try congruence;
          match goal with
          | H : ?x = _ |- context [match ?x with _ => _ end] => rewrite H
          | |- context [match Py.lookup ?k ?d with _ => _ end] =>
              destruct (Py.lookup k d) eqn:?
          | |- context [if ?b then _ else _] => destruct b eqn:?
          | |- context [match ?v with PNone => _ | _ => _ end] => destruct v
          | |- context [match ?l with [] => _ | _ :: _ => _ end] => destruct l
          | |- context [match ?s with EmptyString => _ | String _ _ => _ end] =>
              destruct s
          end).

(** The function is the specification's path, with [None] where the path
    does not resolve. *)
Lemma extract_definition_path data :
  _extract_definition data =
  Return (match definition_path data with Some v => v | None => PNone end).
Proof.
  unfold _extract_definition, _extract_definition_body, definition_path,
    first_object, rbind, Py.getitem0, Py.contains, Py.getitem.
  destruct data as [|b|n|x|s|l|d]; walk.
Qed.

End Extraction.


(* ------------------------------------------------------------------ *)
(** ** The sliding window of [RateLimiter] *)

Section SlidingWindow.

Local Open Scope Q_scope.

Lemma Qltb_true x y : Qltb x y = true <-> x < y.
Proof.
  unfold Qltb. rewrite negb_true_iff. split; intros H.
  - apply Qnot_le_lt. intros Hle. apply Qle_bool_iff in Hle. congruence.
  - destruct (Qle_bool y x) eqn:E; [|reflexivity].
    apply Qle_bool_iff in E. exfalso. lra.
Qed.

Lemma Qltb_false x y : Qltb x y = false <-> y <= x.
Proof.
  unfold Qltb. rewrite negb_false_iff. apply Qle_bool_iff.
Qed.

Lemma Qle_bool_false x y : Qle_bool x y = false <-> y < x.
Proof.
  split; intros H.
  - apply Qnot_le_lt. intros Hle. apply Qle_bool_iff in Hle. congruence.
  - destruct (Qle_bool x y) eqn:E; [|reflexivity].
    apply Qle_bool_iff in E. exfalso. lra.
Qed.

Lemma in_window_true T t : in_window T t = true <-> t <= T /\ T - t < 1.
Proof.
  unfold in_window. rewrite andb_true_iff, Qle_bool_iff, Qltb_true. tauto.
Qed.

Lemma in_window_false T t : in_window T t = false <-> T < t \/ 1 <= T - t.
Proof.
  unfold in_window. rewrite andb_false_iff, Qle_bool_false, Qltb_false. tauto.
Qed.

Lemma count_window_app T a b :
  count_window T (a ++ b) = (count_window T a + count_window T b)%nat.
Proof.
  unfold count_window. rewrite filter_app, length_app. reflexivity.
Qed.

Lemma count_window_le_length T l : (count_window T l <= List.length l)%nat.
Proof. apply filter_length_le. Qed.

Lemma count_window_none T l :
  Forall (fun t => 1 <= T - t) l -> count_window T l = 0%nat.
Proof.
  unfold count_window. induction 1 as [|t l Ht _ IH]; simpl; [reflexivity|].
  assert (in_window T t = false) as -> by (apply in_window_false; auto).
  exact IH.
Qed.

Lemma count_window_all T l :
  Forall (fun t => t <= T /\ T - t < 1) l -> count_window T l = List.length l.
Proof.
  unfold count_window. induction 1 as [|t l Ht _ IH]; simpl; [reflexivity|].
  assert (in_window T t = true) as -> by (apply in_window_true; auto).
  simpl. now rewrite IH.
Qed.

(** A later window holds no more of the timestamps of the past. *)
Lemma count_window_later T T' l :
  T <= T' -> Forall (fun t => t <= T) l ->
  (count_window T' l <= count_window T l)%nat.
Proof.
  unfold count_window. intros HT. induction 1 as [|t l Ht _ IH]; simpl; [lia|].
  destruct (in_window T' t) eqn:E'.
  - apply in_window_true in E'.
    assert (in_window T t = true) as -> by (apply in_window_true; lra).
    simpl. lia.
  - destruct (in_window T t); simpl; lia.
Qed.

(** What the pruning loop removes and what it keeps. *)
Lemma prune_split c times :
  exists old, times = old ++ prune c times
              /\ Forall (fun t => 1 <= c - t) old
              /\ match prune c times with
                 | [] => True
                 | oldest :: _ => c - oldest < 1
                 end.
Proof.
  induction times as [|t rest IH]; simpl.
  - exists []. auto.
  - destruct (Qle_bool 1 (c - t)) eqn:E.
    + destruct IH as (old & Heq & Hold & Hhd).
      exists (t :: old). split; [simpl; congruence|].
      split; [constructor; [apply Qle_bool_iff; exact E | exact Hold] | exact Hhd].
    + exists []. repeat split; [constructor|]. apply Qle_bool_false. exact E.
Qed.

Lemma sorted_suffix (old times : list Q) :
  StronglySorted Qle (old ++ times) -> StronglySorted Qle times.
Proof.
  induction old as [|t old IH]; simpl; [auto|].
  intros H. inversion H; auto.
Qed.

Lemma sorted_snoc (times : list Q) (t : Q) :
  StronglySorted Qle times -> Forall (fun u => u <= t) times ->
  StronglySorted Qle (times ++ [t]).
Proof.
  induction 1 as [|u times Hs IH Hu]; simpl; intros Hle.
  - repeat constructor.
  - inversion Hle; subst. constructor; [auto|].
    apply Forall_app. split; [exact Hu | constructor; [assumption|constructor]].
Qed.

Lemma last_snoc (times : list Q) (t d : Q) : last (times ++ [t]) d = t.
Proof.
  induction times as [|u times IH]; simpl; [reflexivity|].
  destruct (times ++ [t]) eqn:E; [destruct times; discriminate | exact IH].
Qed.

Lemma lags_hd (lg : list Q) : Forall (fun l => 0 <= l) lg -> 0 <= hd 0 lg.
Proof. destruct 1; simpl; [lra | assumption]. Qed.

Lemma lags_tl (lg : list Q) :
  Forall (fun l => 0 <= l) lg -> Forall (fun l => 0 <= l) (tl lg).
Proof. destruct 1; simpl; [constructor | assumption]. Qed.

Lemma limiter_inv_init ceiling w :
  (1 <= ceiling)%Z -> Forall (fun l => 0 <= l) (lags w) ->
  limiter_inv ceiling [] (RateLimiter_init ceiling) w.
Proof.
  intros Hc Hl. split; simpl; auto; try constructor.
  - exists []. split; [reflexivity | constructor].
  - unfold count_window. simpl. lia.
Qed.

(** The invariant bounds every window that ends now or later. *)
Lemma limiter_inv_window ceiling admitted rl w T :
  limiter_inv ceiling admitted rl w -> clock w <= T ->
  (Z.of_nat (count_window T admitted) <= ceiling)%Z.
Proof.
  intros [_ _ _ Hpast (old & -> & Hold) Hcount] HT.
  rewrite count_window_app.
  rewrite (count_window_none T old).
  - pose proof (count_window_later (clock w) T (request_times rl) HT Hpast). lia.
  - eapply Forall_impl; [|exact Hold]. simpl. intros t Ht. lra.
Qed.

Lemma count_window_self T : count_window T [T] = 1%nat.
Proof.
  unfold count_window. simpl.
  assert (in_window T T = true) as -> by (apply in_window_true; lra).
  reflexivity.
Qed.

(** Recording [now] keeps the invariant when the window has room for it. *)
Lemma record_keeps ceiling old kept now lg tr gc trc :
  Forall (fun l => 0 <= l) lg ->
  StronglySorted Qle kept ->
  Forall (fun t => t <= now) kept ->
  Forall (fun t => 1 <= now - t) old ->
  (Z.of_nat (count_window now kept) + 1 <= ceiling)%Z ->
  limiter_inv ceiling ((old ++ kept) ++ [now])
    (mkRateLimiter ceiling (kept ++ [now])) (mkWorld now lg tr gc trc).
Proof.
  intros Hlg Hs Hp Hold Hcount. split; simpl.
  - reflexivity.
  - exact Hlg.
  - apply sorted_snoc; assumption.
  - apply Forall_app. split; [exact Hp|]. constructor; [lra | constructor].
  - exists old. split; [now rewrite app_assoc | exact Hold].
  - rewrite count_window_app, count_window_self. lia.
Qed.

(** One call: it returns, and the invariant holds again with the recorded
    timestamp added. *)
Lemma wait_if_needed_keeps ceiling admitted rl w :
  (1 <= ceiling)%Z -> limiter_inv ceiling admitted rl w ->
  exists rl' w',
    wait_if_needed (rl, w) = (Return tt, (rl', w'))
    /\ limiter_inv ceiling (admitted ++ [last (request_times rl') 0]) rl' w'.
Proof.
  intros Hc [Hm Hl Hs Hp (old & Hadm & Hold) Hcnt].
  destruct rl as [m times], w as [clk lg tr gc trc]; simpl in *. subst m.
  pose proof (lags_hd lg Hl) as Hl1.
  pose proof (lags_tl lg Hl) as Hl'.
  pose proof (lags_hd (tl lg) Hl') as Hl2.
  pose proof (lags_tl (tl lg) Hl') as Hl''.
  destruct (prune_split (clk + hd 0 lg) times) as (gone & Hsplit & Hgone & Hhd).
  unfold wait_if_needed, bind, time_time, self, set_self, note; simpl.
  remember (prune (clk + hd 0 lg) times) as kept eqn:Hkept.
  set (c := clk + hd 0 lg) in *.
  assert (HsK : StronglySorted Qle kept).
  { apply (sorted_suffix gone). now rewrite <- Hsplit. }
  assert (HpK : Forall (fun t => t <= clk) kept).
  { rewrite Hsplit in Hp. apply Forall_app in Hp. tauto. }
  assert (HinK : Forall (fun t => t <= clk /\ clk - t < 1) kept).
  { destruct kept as [|oldest r]; [constructor|].
    inversion HsK as [|? ? _ Hle]; subst.
    inversion HpK as [|? ? Ho Hr]; subst.
    constructor; [split; [exact Ho | unfold c in Hhd; lra]|].
    rewrite Forall_forall in *. intros t Ht.
    specialize (Hle t Ht). specialize (Hr t Ht). simpl in *.
    split; [exact Hr | unfold c in Hhd; lra]. }
  assert (HlenK : (Z.of_nat (List.length kept) <= ceiling)%Z).
  { rewrite <- (count_window_all clk kept HinK).
    rewrite Hsplit, count_window_app in Hcnt. lia. }
  assert (Hall : Forall (fun t => 1 <= c - t) (old ++ gone)).
  { apply Forall_app. split; [|exact Hgone].
    eapply Forall_impl; [|exact Hold]. simpl. intros t Ht. unfold c. lra. }
  assert (Hadm' : admitted = (old ++ gone) ++ kept).
  { rewrite Hadm, Hsplit at 1. now rewrite app_assoc. }
  assert (Hlater : forall now, c <= now ->
            Forall (fun t => t <= now) kept
            /\ Forall (fun t => 1 <= now - t) (old ++ gone)).
  { intros now Hnow. split.
    - eapply Forall_impl; [|exact HpK]. simpl. intros t Ht. unfold c in Hnow. lra.
    - eapply Forall_impl; [|exact Hall]. simpl. intros t Ht. lra. }
  destruct (ceiling <=? Z.of_nat (List.length kept))%Z eqn:Efull.
  - apply Z.leb_le in Efull.
    destruct kept as [|oldest r]; [simpl in Efull; lia|].
    assert (Hroom : forall now, 1 <= now - oldest ->
              (Z.of_nat (count_window now (oldest :: r)) + 1 <= ceiling)%Z).
    { intros now Hnow.
      change (oldest :: r) with ([oldest] ++ r).
      rewrite count_window_app, (count_window_none now [oldest]).
      - pose proof (count_window_le_length now r). simpl in HlenK. lia.
      - constructor; [exact Hnow | constructor]. }
    destruct (Qltb 0 (1 - (c - oldest))) eqn:Esleep.
    + do 2 eexists. split; [reflexivity|]. cbn -[app last].
      rewrite last_snoc, Hadm'.
      destruct (Hlater (c + (1 - (c - oldest)) + hd 0 (tl lg))) as [H1 H2].
      { apply Qltb_true in Esleep. lra. }
      apply (record_keeps ceiling (old ++ gone) (oldest :: r)); auto.
      apply Hroom. lra.
    + do 2 eexists. split; [reflexivity|]. cbn -[app last].
      rewrite last_snoc, Hadm'.
      apply Qltb_false in Esleep.
      destruct (Hlater (c + hd 0 (tl lg))) as [H1 H2]; [lra|].
      apply (record_keeps ceiling (old ++ gone) (oldest :: r)); auto.
      apply Hroom. lra.
  - apply Z.leb_gt in Efull.
    do 2 eexists. split; [reflexivity|]. cbn -[app last].
    rewrite last_snoc, Hadm'.
    destruct (Hlater (c + hd 0 (tl lg))) as [H1 H2]; [lra|].
    apply record_keeps; auto.
    pose proof (count_window_le_length (c + hd 0 (tl lg)) kept). lia.
Qed.

Lemma acquire_times_keeps ceiling n :
  (1 <= ceiling)%Z ->
  forall admitted rl w,
    limiter_inv ceiling admitted rl w ->
    exists recorded rl' w',
      acquire_times n (rl, w) = (Return recorded, (rl', w'))
      /\ List.length recorded = n
      /\ limiter_inv ceiling (admitted ++ recorded) rl' w'.
Proof.
  intros Hc. induction n as [|n IH]; intros admitted rl w Hinv.
  - exists [], rl, w. rewrite app_nil_r. auto.
  - destruct (wait_if_needed_keeps ceiling admitted rl w Hc Hinv)
      as (rl1 & w1 & Hstep & Hinv1).
    destruct (IH _ rl1 w1 Hinv1) as (later & rl2 & w2 & Hrun & Hlen & Hinv2).
    exists (last (request_times rl1) 0 :: later), rl2, w2.
    split; [|split].
    + simpl. unfold bind at 1. rewrite Hstep.
      unfold bind at 1. unfold self at 1. cbn [fst].
      unfold bind at 1. rewrite Hrun. reflexivity.
    + simpl. now rewrite Hlen.
    + rewrite <- app_assoc in Hinv2. exact Hinv2.
Qed.

(** With a ceiling below one the limiter admits nothing: the first call
    finds the deque empty, reads [request_times[0]] and raises. *)
Lemma wait_if_needed_no_room ceiling w :
  (ceiling <= 0)%Z ->
  fst (wait_if_needed (RateLimiter_init ceiling, w)) = Raise IndexError.
Proof.
  intros Hc. unfold wait_if_needed, bind, time_time, self, set_self. simpl.
  assert ((ceiling <=? 0)%Z = true) as -> by (apply Z.leb_le; exact Hc).
  reflexivity.
Qed.

(** C1. A [RateLimiter] with any ceiling is created and [acquire]d
    ([wait_if_needed]) one or more times in a row, with any non-negative
    amounts of time going by in between.  If the calls return, then at the
    moment the last one returns, and at any later moment [T], the timestamps
    admitted so far that lie in the one-second window ending at [T]
    ([T - 1 < t <= T]) number at most the ceiling.  As the number of calls is
    arbitrary, this holds when each call returns. *)
Theorem sliding_window_ceiling (ceiling : Z) (w : World) (n : nat)
  (admitted : list Q) (rl' : RateLimiter) (w' : World) (T : Q) :
  Forall (fun l => 0 <= l) (lags w) ->
  acquire_times (S n) (RateLimiter_init ceiling, w) = (Return admitted, (rl', w')) ->
  clock w' <= T ->
  (Z.of_nat (count_window T admitted) <= ceiling)%Z.
Proof.
  intros Hlags Hrun HT.
  destruct (Z_lt_le_dec ceiling 1) as [Hlow|Hc].
  - exfalso.
    pose proof (wait_if_needed_no_room ceiling w ltac:(lia)) as Hraise.
    simpl in Hrun. unfold bind at 1 in Hrun.
    destruct (wait_if_needed (RateLimiter_init ceiling, w)) as [[u|e] st];
      simpl in Hraise; congruence.
  - destruct (acquire_times_keeps ceiling (S n) Hc [] _ w
                (limiter_inv_init ceiling w Hc Hlags))
      as (recorded & rl2 & w2 & Hrun' & _ & Hinv).
    rewrite Hrun in Hrun'. injection Hrun' as -> -> ->.
    exact (limiter_inv_window ceiling _ rl2 w2 T Hinv HT).
Qed.

Lemma sliding_window_ceiling_witness :
  (Z.of_nat
     (count_window
        (clock (snd (snd (acquire_times 5 (RateLimiter_init 2, Scenario.burst)))))
        (match fst (acquire_times 5 (RateLimiter_init 2, Scenario.burst)) with
         | Return admitted => admitted
         | Raise _ => []
         end)) <= 2)%Z.
Proof.
  apply (sliding_window_ceiling 2 Scenario.burst 4 _
           (fst (snd (acquire_times 5 (RateLimiter_init 2, Scenario.burst))))
           (snd (snd (acquire_times 5 (RateLimiter_init 2, Scenario.burst))))).
  - simpl. repeat constructor; discriminate.
  - vm_compute. reflexivity.
  - apply Qle_refl.
Defined.

(** With a ceiling of at least one every call returns, so the bound on the
    window is about runs that exist. *)
Lemma acquire_times_returns (ceiling : Z) (w : World) (n : nat) :
  (1 <= ceiling)%Z -> Forall (fun l => 0 <= l) (lags w) ->
  exists admitted st',
    acquire_times n (RateLimiter_init ceiling, w) = (Return admitted, st')
    /\ List.length admitted = n.
Proof.
  intros Hc Hlags.
  destruct (acquire_times_keeps ceiling n Hc [] _ w
              (limiter_inv_init ceiling w Hc Hlags))
    as (recorded & rl2 & w2 & Hrun & Hlen & _).
  eauto.
Qed.

End SlidingWindow.

(* ------------------------------------------------------------------ *)
(** ** The retry loop of [get_definition] *)

Section RetryLoop.

Variables (word cleaned_word : string).

Let url := request_url cleaned_word.

Lemma attempt_body_eq svc w :
  attempt_body cleaned_word (svc, w) =
  (attempt_result (transport w (get_calls w) url), (svc, sent url w)).
Proof.
  unfold attempt_body, bind, session_get, attempt_result. fold url.
  destruct (transport w (get_calls w) url) as [e|r]; [reflexivity|].
  destruct (status_code r =? 404)%Z; [reflexivity|].
  unfold call_raise_for_status.
  destruct (client_error (status_code r)), (raise_for_status r);
    simpl; try reflexivity;
    unfold lift; destruct (json r) as [data|e']; simpl; try reflexivity;
    destruct (_extract_definition data); reflexivity.
Qed.

Lemma wait_if_needed_returns rl w :
  (1 <= max_requests_per_second rl)%Z ->
  exists rl' w' acq,
    wait_if_needed (rl, w) = (Return tt, (rl', w'))
    /\ max_requests_per_second rl' = max_requests_per_second rl
    /\ transport w' = transport w
    /\ get_calls w' = get_calls w
    /\ limiter_trace acq
    /\ trace w' = trace w ++ acq.
Proof.
  intros Hc. destruct rl as [m times], w as [clk lg tr gc trc]; simpl in *.
  unfold wait_if_needed, bind, time_time, self, set_self, note; simpl.
  destruct (m <=? Z.of_nat (List.length (prune (clk + hd 0%Q lg)%Q times)))%Z eqn:Efull.
  - destruct (prune (clk + hd 0%Q lg)%Q times) as [|oldest r] eqn:Ekept.
    + apply Z.leb_le in Efull. simpl in Efull. lia.
    + destruct (Qltb 0 (1 - (clk + hd 0 lg - oldest))%Q) eqn:Esleep.
      * do 3 eexists. split; [reflexivity|]. simpl.
        repeat split; try reflexivity.
        -- right. eexists. split; [|reflexivity].
           apply Qltb_true. exact Esleep.
        -- now rewrite <- app_assoc.
      * do 3 eexists. split; [reflexivity|]. simpl.
        repeat split; try reflexivity. left. reflexivity.
  - do 3 eexists. split; [reflexivity|]. simpl.
    repeat split; try reflexivity. left. reflexivity.
Qed.

Lemma limiter_wait_returns svc w :
  (1 <= max_requests_per_second (rate_limiter svc))%Z ->
  exists st', limiter_wait (svc, w) = (Return tt, st') /\ acquired (svc, w) st'.
Proof.
  intros Hc.
  destruct (wait_if_needed_returns (rate_limiter svc) w Hc)
    as (rl' & w' & acq & Hrun & Hm & Ht & Hg & Hacq & Htr).
  exists (mkDictionaryService rl' (max_retries svc), w').
  unfold limiter_wait. rewrite Hrun. split; [reflexivity|].
  unfold acquired. simpl. eauto 10.
Qed.

(** An attempt that ends in a retryable failure, with attempts left: the
    loop sleeps [2 ^ attempt], calls the limiter and goes on. *)
Lemma retry_step attempt rest last svc w e :
  retry_cause (transport w (get_calls w) url) = Some e ->
  attempt <> max_retries svc ->
  (1 <= max_requests_per_second (rate_limiter svc))%Z ->
  exists st',
    acquired (svc, slept (inject_Z (2 ^ attempt)) (sent url w)) st'
    /\ retry_loop (attempt :: rest) word cleaned_word last (svc, w)
       = retry_loop rest word cleaned_word (Some e) st'.
Proof.
  intros Hcause Hnot Hc.
  destruct (limiter_wait_returns svc
              (slept (inject_Z (2 ^ attempt)) (sent url w)) Hc)
    as (st' & Hwait & Hacq).
  exists st'. split; [exact Hacq|].
  simpl. unfold try_except. rewrite attempt_body_eq.
  unfold retry_cause in Hcause.
  destruct (attempt_result (transport w (get_calls w) url)) as [v|[]];
    try discriminate.
  destruct (carries_client_error response); [discriminate|].
  injection Hcause as <-.
  unfold bind at 1. unfold self at 1. cbn [fst].
  assert ((attempt =? max_retries svc)%Z = false) as -> by (apply Z.eqb_neq; exact Hnot).
  unfold bind at 1. unfold time_sleep at 1.
  unfold bind at 1. rewrite Hwait. reflexivity.
Qed.

(** An attempt that ends in a retryable failure when it is the last one. *)
Lemma retry_last rest last svc w e :
  retry_cause (transport w (get_calls w) url) = Some e ->
  retry_loop (max_retries svc :: rest) word cleaned_word last (svc, w)
  = (Raise (DictionaryServiceError word (max_retries svc + 1) (Some e)),
     (svc, sent url w)).
Proof.
  intros Hcause. simpl. unfold try_except. rewrite attempt_body_eq.
  unfold retry_cause in Hcause.
  destruct (attempt_result (transport w (get_calls w) url)) as [v|[]];
    try discriminate.
  destruct (carries_client_error response); [discriminate|].
  injection Hcause as <-.
  unfold bind at 1. unfold self at 1. cbn [fst].
  rewrite Z.eqb_refl. reflexivity.
Qed.

(** An attempt that fails with a client error other than 429. *)
Lemma retry_client_error attempt rest last svc w msg status :
  attempt_result (transport w (get_calls w) url)
  = Raise (RequestException msg (Some status)) ->
  client_error status = true ->
  retry_loop (attempt :: rest) word cleaned_word last (svc, w)
  = (Raise (DictionaryServiceError word (max_retries svc + 1)
              (Some (RequestException msg (Some status)))),
     (svc, sent url w)).
Proof.
  intros Hres Hce. simpl. unfold try_except. rewrite attempt_body_eq, Hres.
  simpl. rewrite Hce. reflexivity.
Qed.

(** An attempt whose [try] body returns. *)
Lemma retry_returns attempt rest last svc w v :
  attempt_result (transport w (get_calls w) url) = Return v ->
  retry_loop (attempt :: rest) word cleaned_word last (svc, w)
  = (Return v, (svc, sent url w)).
Proof.
  intros Hres. simpl. unfold try_except. now rewrite attempt_body_eq, Hres.
Qed.

(** Retryable failures up to the last attempt: the loop gives up with the
    last of them, after one request per attempt. *)
Lemma retry_loop_exhausts k :
  forall attempt last svc w,
    (1 <= max_requests_per_second (rate_limiter svc))%Z ->
    (attempt + Z.of_nat k = max_retries svc)%Z ->
    (forall i, (i <= k)%nat ->
               retry_cause (transport w (get_calls w + i)%nat url) <> None) ->
    exists st',
      retry_loop (range_from attempt (S k)) word cleaned_word last (svc, w)
      = (Raise (DictionaryServiceError word (max_retries svc + 1)
                  (retry_cause (transport w (get_calls w + k)%nat url))),
         st')
      /\ get_calls (snd st') = (get_calls w + S k)%nat.
Proof.
  induction k as [|k IH]; intros attempt last svc w Hc Hlast Hall.
  - assert (attempt = max_retries svc) as -> by lia.
    specialize (Hall 0%nat (Nat.le_refl _)).
    rewrite Nat.add_0_r in *.
    destruct (retry_cause (transport w (get_calls w) url)) as [e|] eqn:Hcause;
      [|congruence].
    eexists. split; [apply (retry_last _ _ _ _ e Hcause)|].
    simpl. lia.
  - pose proof (Hall 0%nat (Nat.le_0_l _)) as H0.
    rewrite Nat.add_0_r in H0.
    destruct (retry_cause (transport w (get_calls w) url)) as [e|] eqn:Hcause;
      [|congruence].
    destruct (retry_step attempt (range_from (attempt + 1) (S k)) last svc w e
                Hcause ltac:(lia) Hc)
      as ([svc1 w1] & (Hmr & Hmx & Htr & Hgc & _) & Hstep).
    simpl in Hmr, Hmx, Htr, Hgc.
    change (range_from attempt (S (S k)))
      with (attempt :: range_from (attempt + 1) (S k)).
    rewrite Hstep.
    destruct (IH (attempt + 1)%Z (Some e) svc1 w1) as (st' & Hrun & Hcalls).
    + now rewrite Hmx.
    + rewrite Hmr. lia.
    + intros i Hi. rewrite Htr, Hgc.
      replace (S (get_calls w) + i)%nat with (get_calls w + S i)%nat by lia.
      apply Hall. lia.
    + exists st'. rewrite Hrun, Hcalls, Hmr, Htr, Hgc.
      replace (S (get_calls w) + k)%nat with (get_calls w + S k)%nat by lia.
      split; [reflexivity | lia].
Qed.

End RetryLoop.

(* ------------------------------------------------------------------ *)
(** ** [get_definition] *)

Section GetDefinition.

Lemma range_from_seq n : forall a,
  map Z.of_nat (seq a n) = range_from (Z.of_nat a) n.
Proof.
  induction n as [|n IH]; intros a; simpl; [reflexivity|].
  rewrite IH. do 2 f_equal. lia.
Qed.

Lemma range_eq n : range n = range_from 0 (Z.to_nat n).
Proof. unfold range. apply (range_from_seq _ 0%nat). Qed.

(** A word that is not blank passes the two checks; with a ceiling of at
    least one the first call of the limiter returns and the loop starts. *)
Lemma get_definition_starts svc w word :
  PyStr.blank word = false ->
  (1 <= max_requests_per_second (rate_limiter svc))%Z ->
  exists st',
    acquired (svc, w) st'
    /\ get_definition (Some word) (svc, w)
       = retry_loop (range_from 0 (Z.to_nat (max_retries svc + 1)))
           word (_clean_word word) None st'.
Proof.
  intros Hword Hc.
  destruct (limiter_wait_returns svc w Hc) as (st' & Hwait & Hacq).
  exists st'. split; [exact Hacq|].
  unfold get_definition.
  destruct (PyStr.nonempty (PyStr.strip word)) eqn:Estrip.
  - simpl. unfold bind at 1. rewrite Hwait.
    unfold bind, self. destruct Hacq as (Hmr & _). simpl in Hmr.
    cbn [fst]. now rewrite Hmr, range_eq.
  - apply strip_empty_iff in Estrip. congruence.
Qed.

Lemma retryable_cause o :
  retryable_outcome o -> retry_cause o = failure_of o /\ failure_of o <> None.
Proof.
  intros [status reason body Hst|reason body|reason];
    unfold retry_cause, attempt_result, http_response; simpl.
  - assert ((status =? 404)%Z = false) as -> by lia.
    assert (((400 <=? status) && (status <? 600))%Z = true) as -> by lia.
    simpl. unfold client_error.
    assert ((status <? 500)%Z = false) as -> by lia.
    rewrite andb_false_r. simpl. split; [reflexivity | discriminate].
  - split; [reflexivity | discriminate].
  - split; [reflexivity | discriminate].
Qed.

(** Failures that the [except] clause retries, one per attempt: the call
    gives up with the last of them after [max_retries + 1] requests. *)
Lemma get_definition_exhausts svc w word :
  PyStr.blank word = false ->
  (1 <= max_requests_per_second (rate_limiter svc))%Z ->
  (0 <= max_retries svc)%Z ->
  (forall i, (i < Z.to_nat (max_retries svc + 1))%nat ->
     retry_cause (transport w (get_calls w + i)%nat
                    (request_url (_clean_word word))) <> None) ->
  exists st',
    get_definition (Some word) (svc, w)
    = (Raise (DictionaryServiceError word (max_retries svc + 1)
                (retry_cause (transport w (get_calls w + Z.to_nat (max_retries svc))%nat
                                (request_url (_clean_word word))))),
       st')
    /\ get_calls (snd st') = (get_calls w + Z.to_nat (max_retries svc + 1))%nat.
Proof.
  intros Hword Hc Hmr Hall.
  destruct (get_definition_starts svc w word Hword Hc)
    as ([svc0 w0] & (Hmr0 & Hmx0 & Htr0 & Hgc0 & _) & Hstart).
  simpl in Hmr0, Hmx0, Htr0, Hgc0.
  replace (Z.to_nat (max_retries svc + 1)) with (S (Z.to_nat (max_retries svc)))
    in * by lia.
  destruct (retry_loop_exhausts word (_clean_word word)
              (Z.to_nat (max_retries svc)) 0%Z None svc0 w0) as (st' & Hrun & Hcalls).
  - now rewrite Hmx0.
  - rewrite Hmr0. lia.
  - intros i Hi. rewrite Htr0, Hgc0. apply Hall. lia.
  - exists st'. rewrite Hstart, Hrun, Hcalls, Hmr0, Htr0, Hgc0. auto.
Qed.

Lemma acquired_calls st st' url :
  acquired st st' ->
  transport (snd st') (get_calls (snd st')) url
  = transport (snd st) (get_calls (snd st)) url.
Proof. intros (_ & _ & Htr & Hgc & _). now rewrite Htr, Hgc. Qed.

(** C2. A word that is not blank is looked up by a service with a working
    limiter (ceiling at least 1) and [max_retries >= 0].  If each of the
    [max_retries + 1] requests that follow ends in a retryable outcome (a
    5xx status, 429, or a failure of the transport), then [get_definition]
    raises [DictionaryServiceError] carrying the failure of the last
    request, and the transport has been called exactly [max_retries + 1]
    more times. *)
Theorem retries_exhausted (svc : DictionaryService) (w : World) (word : string) :
  PyStr.blank word = false ->
  (1 <= max_requests_per_second (rate_limiter svc))%Z ->
  (0 <= max_retries svc)%Z ->
  (forall i, (i < Z.to_nat (max_retries svc + 1))%nat ->
     retryable_outcome (transport w (get_calls w + i)%nat
                          (request_url (_clean_word word)))) ->
  exists cause st',
    failure_of (transport w (get_calls w + Z.to_nat (max_retries svc))%nat
                  (request_url (_clean_word word))) = Some cause
    /\ get_definition (Some word) (svc, w)
       = (Raise (DictionaryServiceError word (max_retries svc + 1) (Some cause)), st')
    /\ get_calls (snd st') = (get_calls w + Z.to_nat (max_retries svc + 1))%nat.
Proof.
  intros Hword Hc Hmr Hall.
  destruct (get_definition_exhausts svc w word Hword Hc Hmr) as (st' & Hrun & Hcalls).
  - intros i Hi. destruct (retryable_cause _ (Hall i Hi)) as [-> Hne]. exact Hne.
  - destruct (retryable_cause _ (Hall (Z.to_nat (max_retries svc)) ltac:(lia)))
      as [Heq Hne].
    rewrite Heq in Hrun.
    destruct (failure_of _) as [cause|] eqn:Ecause; [|congruence].
    exists cause, st'. auto.
Qed.

Lemma retries_exhausted_witness :
  exists cause st',
    failure_of (transport (Scenario.world Scenario.unavailable)
                  (get_calls (Scenario.world Scenario.unavailable)
                   + Z.to_nat (max_retries Scenario.service))%nat
                  (request_url (_clean_word "test"))) = Some cause
    /\ get_definition (Some "test")
         (Scenario.service, Scenario.world Scenario.unavailable)
       = (Raise (DictionaryServiceError "test"
                   (max_retries Scenario.service + 1) (Some cause)), st')
    /\ get_calls (snd st')
       = (get_calls (Scenario.world Scenario.unavailable)
          + Z.to_nat (max_retries Scenario.service + 1))%nat.
Proof.
  apply (retries_exhausted Scenario.service
           (Scenario.world Scenario.unavailable) "test").
  - reflexivity.
  - simpl. lia.
  - simpl. lia.
  - intros i _. apply Retryable_server_error. lia.
Defined.

(** C3. A word that is not blank is looked up by a service with a working
    limiter and [max_retries >= 2].  If the next two requests end in
    retryable outcomes and the third is answered with a 2xx status and a
    body [data], then [get_definition] returns the definition of that body:
    the value found in [data] at first entry, first meaning group, first
    definition object, field [definition] ([None] if that path does not
    resolve).  The transport has been called exactly three times, and the
    calls were made in this order: limiter, request, sleep of [2^0 = 1],
    limiter, request, sleep of [2^1 = 2], limiter, request. *)
Theorem two_failures_then_success (svc : DictionaryService) (w : World)
  (word : string) (status : Z) (reason : string) (data : pyval) :
  let url := request_url (_clean_word word) in
  PyStr.blank word = false ->
  (1 <= max_requests_per_second (rate_limiter svc))%Z ->
  (2 <= max_retries svc)%Z ->
  retryable_outcome (transport w (get_calls w) url) ->
  retryable_outcome (transport w (S (get_calls w)) url) ->
  (200 <= status < 300)%Z ->
  transport w (S (S (get_calls w))) url
  = GetReturns (http_response status reason (Return data)) ->
  exists st' acq1 acq2 acq3,
    get_definition (Some word) (svc, w)
    = (Return (match definition_path data with
               | Some definition => definition
               | None => PNone
               end), st')
    /\ get_calls (snd st') = (get_calls w + 3)%nat
    /\ limiter_trace acq1 /\ limiter_trace acq2 /\ limiter_trace acq3
    /\ trace (snd st')
       = trace w ++ acq1 ++ [EvGet url; EvSleep 1] ++ acq2
                 ++ [EvGet url; EvSleep 2] ++ acq3 ++ [EvGet url].
Proof.
  intros url Hword Hc Hmr Hfail1 Hfail2 Hst Hok.
  destruct (get_definition_starts svc w word Hword Hc)
    as ([svc0 w0] & Hacq0 & Hstart).
  pose proof (acquired_calls _ _ url Hacq0) as Hsame0.
  destruct Hacq0 as (Hmr0 & Hmx0 & Htr0 & Hgc0 & acq1 & Hacq1 & Htrace0).
  simpl in Hmr0, Hmx0, Htr0, Hgc0, Htrace0, Hsame0.
  replace (Z.to_nat (max_retries svc + 1))
    with (S (S (S (Z.to_nat (max_retries svc - 2))))) in Hstart by lia.
  cbn [range_from] in Hstart.
  (* first attempt *)
  destruct (retryable_cause _ Hfail1) as [Hc1 Hne1].
  destruct (failure_of (transport w (get_calls w) url)) as [e1|] eqn:Ee1;
    [clear Hne1|congruence].
  rewrite <- Hsame0 in Hc1.
  destruct (retry_step word (_clean_word word) 0%Z
              (((0 + 1) :: (0 + 1 + 1) :: range_from (0 + 1 + 1 + 1) (Z.to_nat (max_retries svc - 2)))%Z)
              None svc0 w0 e1 Hc1 ltac:(lia) ltac:(lia))
    as ([svc1 w1] & Hacq1' & Hstep1).
  pose proof (acquired_calls _ _ url Hacq1') as Hsame1.
  destruct Hacq1' as (Hmr1 & Hmx1 & Htr1 & Hgc1 & acq2 & Hacq2 & Htrace1).
  simpl in Hmr1, Hmx1, Htr1, Hgc1, Htrace1, Hsame1.
  (* second attempt *)
  destruct (retryable_cause _ Hfail2) as [Hc2 Hne2].
  destruct (failure_of (transport w (S (get_calls w)) url)) as [e2|] eqn:Ee2;
    [clear Hne2|congruence].
  rewrite <- Hgc0, <- Htr0, <- Hsame1 in Hc2.
  destruct (retry_step word (_clean_word word) (0 + 1)%Z
              (((0 + 1 + 1) :: range_from (0 + 1 + 1 + 1) (Z.to_nat (max_retries svc - 2)))%Z)
              (Some e1) svc1 w1 e2 Hc2 ltac:(lia) ltac:(lia))
    as ([svc2 w2] & Hacq2' & Hstep2).
  pose proof (acquired_calls _ _ url Hacq2') as Hsame2.
  destruct Hacq2' as (Hmr2 & Hmx2 & Htr2 & Hgc2 & acq3 & Hacq3 & Htrace2).
  simpl in Hmr2, Hmx2, Htr2, Hgc2, Htrace2, Hsame2.
  (* third attempt *)
  assert (Hres : attempt_result (transport w2 (get_calls w2) url)
                 = _extract_definition data).
  { rewrite Hsame2, Hgc1, Hgc0, Htr1, Htr0, Hok.
    unfold attempt_result, http_response. simpl.
    assert ((status =? 404)%Z = false) as -> by lia.
    assert (((400 <=? status) && (status <? 600))%Z = false) as -> by lia.
    reflexivity. }
  rewrite (extract_definition_path data) in Hres.
  exists (svc2, sent url w2), acq1, acq2, acq3.
  split; [|split; [|repeat split; try assumption]].
  - rewrite Hstart, Hstep1, Hstep2.
    apply (retry_returns word (_clean_word word)). exact Hres.
  - simpl. rewrite Hgc2. simpl. rewrite Hgc1. simpl. rewrite Hgc0. lia.
  - simpl. rewrite Htrace2. simpl. rewrite Htrace1. simpl. rewrite Htrace0.
    fold url. repeat rewrite <- app_assoc. reflexivity.
Qed.

Lemma two_failures_then_success_witness :
  exists st' acq1 acq2 acq3,
    get_definition (Some "test") (Scenario.service, Scenario.world Scenario.recovers)
    = (Return (PStr "test definition"), st')
    /\ get_calls (snd st') = (get_calls (Scenario.world Scenario.recovers) + 3)%nat
    /\ limiter_trace acq1 /\ limiter_trace acq2 /\ limiter_trace acq3
    /\ trace (snd st')
       = trace (Scenario.world Scenario.recovers)
         ++ acq1 ++ [EvGet (request_url (_clean_word "test")); EvSleep 1] ++ acq2
         ++ [EvGet (request_url (_clean_word "test")); EvSleep 2] ++ acq3
         ++ [EvGet (request_url (_clean_word "test"))].
Proof.
  apply (two_failures_then_success Scenario.service
           (Scenario.world Scenario.recovers) "test" 200 "OK"
           Scenario.test_definition).
  - reflexivity.
  - simpl. lia.
  - simpl. lia.
  - apply Retryable_server_error. lia.
  - apply Retryable_server_error. lia.
  - lia.
  - reflexivity.
Defined.

(** An invalid word is refused before anything is touched. *)
Lemma get_definition_invalid word st :
  invalid_word word = true ->
  get_definition word st = (Raise (invalid_word_error word), st).
Proof.
  intros Hbad. destruct word as [s|]; simpl in *; [|reflexivity].
  apply strip_empty_iff in Hbad. now rewrite Hbad.
Qed.

Lemma invalid_word_error_value word :
  exists msg, invalid_word_error word = ValueError msg.
Proof. destruct word; simpl; eauto. Qed.

(** The first attempt of a lookup decides it when its [try] body returns
    or fails with a client error: one request, no sleep. *)
Lemma first_attempt_decides svc w word :
  PyStr.blank word = false ->
  (1 <= max_requests_per_second (rate_limiter svc))%Z ->
  (0 <= max_retries svc)%Z ->
  exists svc0 w0 acq,
    limiter_trace acq
    /\ trace (sent (request_url (_clean_word word)) w0)
       = trace w ++ acq ++ [EvGet (request_url (_clean_word word))]
    /\ get_calls (sent (request_url (_clean_word word)) w0) = S (get_calls w)
    /\ max_retries svc0 = max_retries svc
    /\ (forall v,
          attempt_result (transport w (get_calls w) (request_url (_clean_word word)))
          = Return v ->
          get_definition (Some word) (svc, w)
          = (Return v, (svc0, sent (request_url (_clean_word word)) w0)))
    /\ (forall msg status,
          attempt_result (transport w (get_calls w) (request_url (_clean_word word)))
          = Raise (RequestException msg (Some status)) ->
          client_error status = true ->
          get_definition (Some word) (svc, w)
          = (Raise (DictionaryServiceError word (max_retries svc + 1)
                      (Some (RequestException msg (Some status)))),
             (svc0, sent (request_url (_clean_word word)) w0))).
Proof.
  intros Hword Hc Hmr.
  destruct (get_definition_starts svc w word Hword Hc)
    as ([svc0 w0] & Hacq0 & Hstart).
  pose proof (acquired_calls _ _ (request_url (_clean_word word)) Hacq0) as Hsame0.
  destruct Hacq0 as (Hmr0 & Hmx0 & Htr0 & Hgc0 & acq & Hacq & Htrace0).
  simpl in Hmr0, Hmx0, Htr0, Hgc0, Htrace0, Hsame0.
  replace (Z.to_nat (max_retries svc + 1))
    with (S (Z.to_nat (max_retries svc))) in Hstart by lia.
  cbn [range_from] in Hstart.
  exists svc0, w0, acq. repeat split.
  - exact Hacq.
  - simpl. rewrite Htrace0. now rewrite <- app_assoc.
  - simpl. now rewrite Hgc0.
  - exact Hmr0.
  - intros v Hres. rewrite Hstart.
    apply (retry_returns word (_clean_word word)). now rewrite Hsame0.
  - intros msg status Hres Hce. rewrite Hstart, <- Hmr0.
    apply (retry_client_error word (_clean_word word)); [now rewrite Hsame0 | exact Hce].
Qed.

(** C4, as amended.  A word that is not blank is looked up by a service
    with a working limiter and [max_retries >= 0].  If the first request is
    answered with a status in 400..499 other than 404 and 429, then
    [get_definition] raises [DictionaryServiceError] carrying that failure
    after exactly one request: the trace holds one limiter call and one
    request, and no sleep after it. *)
Theorem client_error_is_terminal (svc : DictionaryService) (w : World)
  (word : string) (status : Z) (reason : string) (body : result pyval) :
  let url := request_url (_clean_word word) in
  PyStr.blank word = false ->
  (1 <= max_requests_per_second (rate_limiter svc))%Z ->
  (0 <= max_retries svc)%Z ->
  (400 <= status < 500)%Z -> status <> 429%Z -> status <> 404%Z ->
  transport w (get_calls w) url = GetReturns (http_response status reason body) ->
  exists st' acq,
    get_definition (Some word) (svc, w)
    = (Raise (DictionaryServiceError word (max_retries svc + 1)
                (Some (RequestException reason (Some status)))), st')
    /\ get_calls (snd st') = S (get_calls w)
    /\ limiter_trace acq
    /\ trace (snd st') = trace w ++ acq ++ [EvGet url].
Proof.
  intros url Hword Hc Hmr Hst H429 H404 Hget.
  destruct (first_attempt_decides svc w word Hword Hc Hmr)
    as (svc0 & w0 & acq & Hacq & Htrace & Hcalls & _ & _ & Hterminal).
  exists (svc0, sent url w0), acq.
  split; [|auto].
  apply Hterminal.
  - fold url. rewrite Hget. unfold attempt_result, http_response. simpl.
    assert ((status =? 404)%Z = false) as -> by lia.
    assert (((400 <=? status) && (status <? 600))%Z = true) as -> by lia.
    reflexivity.
  - unfold client_error.
    assert (((400 <=? status) && (status <? 500))%Z = true) as -> by lia.
    assert ((status =? 429)%Z = false) as -> by lia.
    reflexivity.
Qed.

Lemma client_error_is_terminal_witness :
  exists st' acq,
    get_definition (Some "test") (Scenario.service, Scenario.world Scenario.bad_request)
    = (Raise (DictionaryServiceError "test" (max_retries Scenario.service + 1)
                (Some (RequestException "Bad request" (Some 400%Z)))), st')
    /\ get_calls (snd st') = S (get_calls (Scenario.world Scenario.bad_request))
    /\ limiter_trace acq
    /\ trace (snd st')
       = trace (Scenario.world Scenario.bad_request) ++ acq
         ++ [EvGet (request_url (_clean_word "test"))].
Proof.
  apply (client_error_is_terminal Scenario.service
           (Scenario.world Scenario.bad_request) "test" 400 "Bad request"
           (Return PNone)).
  - reflexivity.
  - simpl. lia.
  - simpl. lia.
  - lia.
  - discriminate.
  - discriminate.
  - reflexivity.
Defined.

(** C4 as the specification states it fails at 404, a status in 400..499
    other than 429: the lookup returns [None] and raises nothing. *)
Lemma client_error_404_returns :
  (400 <= 404 < 500)%Z /\ 404%Z <> 429%Z
  /\ transport (Scenario.world Scenario.not_found) 0 (request_url (_clean_word "test"))
     = GetReturns (http_response 404 "Not Found" (Return PNone))
  /\ fst (get_definition (Some "test")
            (Scenario.service, Scenario.world Scenario.not_found))
     = Return PNone
  /\ forall e,
       fst (get_definition (Some "test")
              (Scenario.service, Scenario.world Scenario.not_found))
       <> Raise e.
Proof.
  repeat split; try lia; try discriminate.
Qed.

(** C5 as the specification states it fails: when every request is
    answered with a 400 response of the [requests] library,
    [get_definition] with the default [max_retries = 3] calls the transport
    once, not four times. *)
Lemma bad_request_not_retried :
  get_calls (snd (snd (get_definition (Some "test")
                         (Scenario.service, Scenario.world Scenario.bad_request))))
  = 1%nat
  /\ get_calls (snd (snd (get_definition (Some "test")
                            (Scenario.service, Scenario.world Scenario.bad_request))))
     <> 4%nat.
Proof. split; [reflexivity | discriminate]. Qed.

(** C5, as amended.  A word that is not blank is looked up by a service
    with a working limiter and [max_retries >= 0].  If every request is
    answered with status 400 by a response whose [raise_for_status] raises an
    exception that carries no response (the mock of the unit test), the
    [except] clause sees no status, retries, and [get_definition] gives up
    after [max_retries + 1] requests (4 with the default). *)
Theorem mocked_400_is_retried (svc : DictionaryService) (w : World) (word : string) :
  PyStr.blank word = false ->
  (1 <= max_requests_per_second (rate_limiter svc))%Z ->
  (0 <= max_retries svc)%Z ->
  (forall i, (i < Z.to_nat (max_retries svc + 1))%nat ->
     exists msg body,
       transport w (get_calls w + i)%nat (request_url (_clean_word word))
       = GetReturns (mkResponse 400 (Some (RequestException msg None)) body)) ->
  exists cause st',
    get_definition (Some word) (svc, w)
    = (Raise (DictionaryServiceError word (max_retries svc + 1) (Some cause)), st')
    /\ get_calls (snd st') = (get_calls w + Z.to_nat (max_retries svc + 1))%nat.
Proof.
  intros Hword Hc Hmr Hall.
  assert (Hcause : forall i, (i < Z.to_nat (max_retries svc + 1))%nat ->
            exists e, retry_cause (transport w (get_calls w + i)%nat
                                     (request_url (_clean_word word))) = Some e).
  { intros i Hi. destruct (Hall i Hi) as (msg & body & ->).
    eexists. reflexivity. }
  destruct (get_definition_exhausts svc w word Hword Hc Hmr) as (st' & Hrun & Hcalls).
  - intros i Hi. destruct (Hcause i Hi) as (e & ->). discriminate.
  - destruct (Hcause (Z.to_nat (max_retries svc)) ltac:(lia)) as (e & He).
    rewrite He in Hrun. exists e, st'. auto.
Qed.

Lemma mocked_400_is_retried_witness :
  exists cause st',
    get_definition (Some "test")
      (Scenario.service, Scenario.world Scenario.mocked_bad_request)
    = (Raise (DictionaryServiceError "test" (max_retries Scenario.service + 1)
                (Some cause)), st')
    /\ get_calls (snd st')
       = (get_calls (Scenario.world Scenario.mocked_bad_request)
          + Z.to_nat (max_retries Scenario.service + 1))%nat.
Proof.
  apply (mocked_400_is_retried Scenario.service
           (Scenario.world Scenario.mocked_bad_request) "test").
  - reflexivity.
  - simpl. lia.
  - simpl. lia.
  - intros i _. exists "Bad request", (Return PNone). reflexivity.
Defined.

(** C6. A word that is not blank is looked up by a service with a working
    limiter and [max_retries >= 0].  If the first request is answered with
    status 404, [get_definition] returns [None] and raises nothing, after
    exactly one request and no sleep. *)
Theorem not_found_returns_none (svc : DictionaryService) (w : World)
  (word : string) (r : Response) :
  let url := request_url (_clean_word word) in
  PyStr.blank word = false ->
  (1 <= max_requests_per_second (rate_limiter svc))%Z ->
  (0 <= max_retries svc)%Z ->
  transport w (get_calls w) url = GetReturns r ->
  status_code r = 404%Z ->
  exists st' acq,
    get_definition (Some word) (svc, w) = (Return PNone, st')
    /\ get_calls (snd st') = S (get_calls w)
    /\ limiter_trace acq
    /\ trace (snd st') = trace w ++ acq ++ [EvGet url].
Proof.
  intros url Hword Hc Hmr Hget H404.
  destruct (first_attempt_decides svc w word Hword Hc Hmr)
    as (svc0 & w0 & acq & Hacq & Htrace & Hcalls & _ & Hreturns & _).
  exists (svc0, sent url w0), acq.
  split; [|auto].
  apply Hreturns. fold url. rewrite Hget. unfold attempt_result.
  now rewrite H404.
Qed.

Lemma not_found_returns_none_witness :
  exists st' acq,
    get_definition (Some "nonexistentword")
      (Scenario.service, Scenario.world Scenario.not_found)
    = (Return PNone, st')
    /\ get_calls (snd st') = S (get_calls (Scenario.world Scenario.not_found))
    /\ limiter_trace acq
    /\ trace (snd st')
       = trace (Scenario.world Scenario.not_found) ++ acq
         ++ [EvGet (request_url (_clean_word "nonexistentword"))].
Proof.
  apply (not_found_returns_none Scenario.service
           (Scenario.world Scenario.not_found) "nonexistentword"
           (http_response 404 "Not Found" (Return PNone))).
  - reflexivity.
  - simpl. lia.
  - simpl. lia.
  - reflexivity.
  - reflexivity.
Defined.

(** C8. For a word that is [None], empty or made of whitespace only,
    [get_definition] raises [ValueError] and leaves the service and the world
    as they were: no request is sent, no limiter call is made and
    [request_times] is unchanged. *)
Theorem invalid_word_rejected (word : option string)
  (st : DictionaryService * World) :
  invalid_word word = true ->
  exists msg, get_definition word st = (Raise (ValueError msg), st).
Proof.
  intros Hbad. destruct (invalid_word_error_value word) as (msg & Hmsg).
  exists msg. rewrite <- Hmsg. now apply get_definition_invalid.
Qed.

Lemma invalid_word_rejected_witness :
  exists msg,
    get_definition (Some "   ")
      (Scenario.service, Scenario.world Scenario.unavailable)
    = (Raise (ValueError msg),
       (Scenario.service, Scenario.world Scenario.unavailable)).
Proof.
  apply (invalid_word_rejected (Some "   ")). reflexivity.
Defined.

End GetDefinition.

(* ------------------------------------------------------------------ *)
(** ** [get_definitions] *)

Section Batch.

Lemma lookups_length words :
  forall st, List.length (fst (lookups words st)) = List.length words.
Proof.
  induction words as [|word rest IH]; intros st; simpl; [reflexivity|].
  destruct (get_definition word st) as [r st1].
  specialize (IH st1). destruct (lookups rest st1) as [rs st2].
  simpl in *. now rewrite IH.
Qed.

(** One turn of the loop on a word whose lookup is survivable. *)
Lemma collect_step word rest definitions st :
  survivable (fst (get_definition word st)) ->
  collect (word :: rest) definitions st
  = collect rest (definitions ++ [slot (fst (get_definition word st))])
      (snd (get_definition word st)).
Proof.
  intros Hok. simpl. unfold bind at 1. unfold try_except, bind, ret.
  destruct (get_definition word st) as [[v|e] st1]; simpl in *; [reflexivity|].
  destruct e; simpl in Hok; try contradiction. reflexivity.
Qed.

(** One turn of the loop on a word whose lookup raises something else. *)
Lemma collect_abort word rest definitions st e :
  fst (get_definition word st) = Raise e ->
  ~ survivable (Raise e) ->
  collect (word :: rest) definitions st = (Raise e, snd (get_definition word st)).
Proof.
  intros Hraise Hbad. simpl. unfold bind at 1. unfold try_except, bind, ret.
  destruct (get_definition word st) as [[v|e'] st1]; simpl in *; [discriminate|].
  injection Hraise as ->.
  destruct e; simpl in Hbad; try reflexivity. tauto.
Qed.

Lemma collect_lookups words :
  forall definitions st,
    Forall survivable (fst (lookups words st)) ->
    collect words definitions st
    = (Return (definitions ++ map slot (fst (lookups words st))),
       snd (lookups words st)).
Proof.
  induction words as [|word rest IH]; intros definitions st Hok.
  - simpl. now rewrite app_nil_r.
  - simpl in Hok.
    destruct (get_definition word st) as [r st1] eqn:Eword.
    destruct (lookups rest st1) as [rs st2] eqn:Erest.
    simpl in Hok. inversion Hok as [|? ? Hr Hrs]; subst.
    rewrite collect_step by (rewrite Eword; exact Hr).
    rewrite Eword. cbn [fst snd].
    rewrite IH by (rewrite Erest; exact Hrs).
    simpl. rewrite Eword, Erest. simpl.
    now rewrite <- app_assoc.
Qed.

Lemma collect_app pre rest :
  forall definitions st,
    collect (pre ++ rest) definitions st
    = match collect pre definitions st with
      | (Return definitions', st') => collect rest definitions' st'
      | (Raise e, st') => (Raise e, st')
      end.
Proof.
  induction pre as [|word pre IH]; intros definitions st; [reflexivity|].
  cbn [app collect]. unfold bind at 1 3.
  destruct (try_except _ _ st) as [[definitions'|e] st1]; [apply IH | reflexivity].
Qed.

(** With a working limiter and a tame transport, the loop ends in a return
    or in [DictionaryServiceError], and leaves the transport and the ceiling
    as they were. *)
Lemma retry_loop_survivable word cleaned_word attempts :
  forall last svc w,
    (1 <= max_requests_per_second (rate_limiter svc))%Z ->
    (forall n url, tame (transport w n url)) ->
    survivable (fst (retry_loop attempts word cleaned_word last (svc, w)))
    /\ transport (snd (snd (retry_loop attempts word cleaned_word last (svc, w))))
       = transport w
    /\ max_requests_per_second
         (rate_limiter (fst (snd (retry_loop attempts word cleaned_word last (svc, w)))))
       = max_requests_per_second (rate_limiter svc).
Proof.
  induction attempts as [|attempt rest IH]; intros last svc w Hc Htame.
  - simpl. auto.
  - cbn [retry_loop]. unfold try_except. rewrite attempt_body_eq.
    pose proof (Htame (get_calls w) (request_url cleaned_word)) as Ht.
    unfold tame in Ht.
    destruct (attempt_result (transport w (get_calls w) (request_url cleaned_word)))
      as [v|e]; [simpl; auto|].
    destruct e; simpl in Ht; try contradiction; [|simpl; auto].
    destruct (carries_client_error response); [simpl; auto|].
    unfold bind, self. cbn [fst].
    destruct (attempt =? max_retries svc)%Z; [simpl; auto|].
    unfold time_sleep.
    destruct (limiter_wait_returns svc
                (slept (inject_Z (2 ^ attempt)) (sent (request_url cleaned_word) w)) Hc)
      as ([svc1 w1] & -> & (Hmr & Hmx & Htr & _)).
    simpl in Hmr, Hmx, Htr.
    destruct (IH (Some (RequestException msg response)) svc1 w1) as (H1 & H2 & H3).
    + now rewrite Hmx.
    + intros n u. rewrite Htr. apply Htame.
    + rewrite H2, H3, Htr, Hmx. auto.
Qed.

Lemma get_definition_survivable word svc w :
  invalid_word word = false ->
  (1 <= max_requests_per_second (rate_limiter svc))%Z ->
  (forall n url, tame (transport w n url)) ->
  survivable (fst (get_definition word (svc, w)))
  /\ transport (snd (snd (get_definition word (svc, w)))) = transport w
  /\ max_requests_per_second
       (rate_limiter (fst (snd (get_definition word (svc, w)))))
     = max_requests_per_second (rate_limiter svc).
Proof.
  intros Hword Hc Htame. destruct word as [s|]; [simpl in Hword | discriminate].
  destruct (get_definition_starts svc w s Hword Hc)
    as ([svc0 w0] & (Hmr & Hmx & Htr & _) & ->).
  simpl in Hmr, Hmx, Htr.
  destruct (retry_loop_survivable s (_clean_word s)
              (range_from 0 (Z.to_nat (max_retries svc + 1))) None svc0 w0)
    as (H1 & H2 & H3).
  - now rewrite Hmx.
  - intros n u. rewrite Htr. apply Htame.
  - rewrite H2, H3, Htr, Hmx. auto.
Qed.

(** Words that are all valid, a working limiter and a tame transport: every
    lookup of the batch is survivable. *)
Lemma lookups_survivable words :
  forall svc w,
    Forall (fun word => invalid_word word = false) words ->
    (1 <= max_requests_per_second (rate_limiter svc))%Z ->
    (forall n url, tame (transport w n url)) ->
    Forall survivable (fst (lookups words (svc, w))).
Proof.
  induction words as [|word rest IH]; intros svc w Hwords Hc Htame; simpl.
  - constructor.
  - inversion Hwords as [|? ? Hword Hrest]; subst.
    destruct (get_definition_survivable word svc w Hword Hc Htame) as (H1 & H2 & H3).
    destruct (get_definition word (svc, w)) as [r [svc1 w1]]. simpl in H1, H2, H3.
    specialize (IH svc1 w1 Hrest).
    destruct (lookups rest (svc1, w1)) as [rs st2]. simpl in *.
    constructor; [exact H1|]. apply IH.
    + now rewrite H3.
    + intros n u. rewrite H2. apply Htame.
Qed.

(** C9 as the specification states it fails: a list with an empty word
    yields no list of slots, the call raises [ValueError]. *)
Lemma batch_with_empty_word_raises :
  fst (get_definitions (WordList [Some "a"; Some ""; Some "c"])
         (Scenario.service, Scenario.world Scenario.recovers))
  = Raise (ValueError "Word cannot be empty")
  /\ forall slots,
       fst (get_definitions (WordList [Some "a"; Some ""; Some "c"])
              (Scenario.service, Scenario.world Scenario.recovers))
       <> Return slots.
Proof. split; [reflexivity | discriminate]. Qed.

(** C9, as amended.  For every list of words each of whose lookups, run in
    input order from the state the one before left, either returns or raises
    [DictionaryServiceError], [get_definitions] returns a list with exactly
    one slot per word, in input order: the returned definition where the
    lookup returned, [None] where it raised [DictionaryServiceError]; every
    lookup is run, and the final state is the one the last lookup left. *)
Theorem batch_keeps_going (words : list (option string))
  (st : DictionaryService * World) :
  Forall survivable (fst (lookups words st)) ->
  get_definitions (WordList words) st
  = (Return (map slot (fst (lookups words st))), snd (lookups words st))
  /\ List.length (map slot (fst (lookups words st))) = List.length words.
Proof.
  intros Hok. split.
  - simpl. now rewrite collect_lookups.
  - now rewrite length_map, lookups_length.
Qed.

Lemma batch_keeps_going_witness :
  get_definitions (WordList [Some "a"; Some "bad"; Some "c"])
    (Scenario.service, Scenario.world Scenario.bad_word)
  = (Return (map slot (fst (lookups [Some "a"; Some "bad"; Some "c"]
                              (Scenario.service, Scenario.world Scenario.bad_word)))),
     snd (lookups [Some "a"; Some "bad"; Some "c"]
            (Scenario.service, Scenario.world Scenario.bad_word)))
  /\ List.length (map slot (fst (lookups [Some "a"; Some "bad"; Some "c"]
                                   (Scenario.service, Scenario.world Scenario.bad_word))))
     = List.length [Some "a"; Some "bad"; Some "c"].
Proof.
  apply (batch_keeps_going [Some "a"; Some "bad"; Some "c"]
           (Scenario.service, Scenario.world Scenario.bad_word)).
  vm_compute. repeat constructor.
Defined.

(** The amended contract at work: valid words, a working limiter and a tame
    transport always give one slot per word. *)
Corollary batch_of_valid_words (words : list (option string))
  (svc : DictionaryService) (w : World) :
  Forall (fun word => invalid_word word = false) words ->
  (1 <= max_requests_per_second (rate_limiter svc))%Z ->
  (forall n url, tame (transport w n url)) ->
  exists slots st',
    get_definitions (WordList words) (svc, w) = (Return slots, st')
    /\ List.length slots = List.length words.
Proof.
  intros Hwords Hc Htame.
  pose proof (lookups_survivable words svc w Hwords Hc Htame) as Hok.
  do 2 eexists. split.
  - simpl. rewrite collect_lookups by exact Hok. reflexivity.
  - simpl. now rewrite length_map, lookups_length.
Qed.

(** The batch of the specification: three slots, the middle one absent. *)
Example batch_a_bad_c :
  fst (get_definitions (WordList [Some "a"; Some "bad"; Some "c"])
         (Scenario.service, Scenario.world Scenario.bad_word))
  = Return [PStr "test definition"; PNone; PStr "test definition"].
Proof. reflexivity. Qed.

(** C10. When a list of words holds a word that is [None], empty or made of
    whitespace only, [get_definitions] never returns a list: it behaves as on
    the words before that one, and if those are all collected it raises the
    [ValueError] of that word in the state they left, so that no later word
    is looked up and the definitions collected so far are lost.  (If an
    earlier word already raised past the loop, that exception is the one
    that propagates.) *)
Theorem invalid_word_aborts_batch (pre post : list (option string))
  (bad : option string) (st : DictionaryService * World) :
  invalid_word bad = true ->
  (exists msg,
     get_definitions (WordList (pre ++ bad :: post)) st
     = match get_definitions (WordList pre) st with
       | (Return _, st') => (Raise (ValueError msg), st')
       | (Raise e, st') => (Raise e, st')
       end)
  /\ forall slots, fst (get_definitions (WordList (pre ++ bad :: post)) st)
                   <> Return slots.
Proof.
  intros Hbad.
  destruct (invalid_word_error_value bad) as (msg & Hmsg).
  assert (Hmsg' : forall st', get_definition bad st' = (Raise (ValueError msg), st')).
  { intros st'. rewrite <- Hmsg. now apply get_definition_invalid. }
  assert (Hsame : forall definitions st',
            collect (bad :: post) definitions st' = (Raise (ValueError msg), st')).
  { intros definitions st'.
    rewrite (collect_abort bad post definitions st' (ValueError msg)).
    - now rewrite Hmsg'.
    - now rewrite Hmsg'.
    - simpl. tauto. }
  split.
  - exists msg. simpl. rewrite collect_app.
    destruct (collect pre [] st) as [[definitions|e] st']; [apply Hsame | reflexivity].
  - intros slots. simpl. rewrite collect_app.
    destruct (collect pre [] st) as [[definitions|e] st'];
      [rewrite Hsame|]; simpl; discriminate.
Qed.

Lemma invalid_word_aborts_batch_witness :
  (exists msg,
     get_definitions (WordList ([Some "a"] ++ Some " " :: [Some "c"]))
       (Scenario.service, Scenario.world Scenario.recovers)
     = match get_definitions (WordList [Some "a"])
               (Scenario.service, Scenario.world Scenario.recovers) with
       | (Return _, st') => (Raise (ValueError msg), st')
       | (Raise e, st') => (Raise e, st')
       end)
  /\ forall slots,
       fst (get_definitions (WordList ([Some "a"] ++ Some " " :: [Some "c"]))
              (Scenario.service, Scenario.world Scenario.recovers))
       <> Return slots.
Proof.
  apply (invalid_word_aborts_batch [Some "a"] [Some "c"] (Some " ")
           (Scenario.service, Scenario.world Scenario.recovers)).
  reflexivity.
Defined.

End Batch.

(* ------------------------------------------------------------------ *)
(** ** More on [RateLimiter.wait_if_needed] *)

Section LimiterBehaviour.

Local Open Scope Q_scope.

Lemma prune_length c times :
  (List.length (prune c times) <= List.length times)%nat.
Proof.
  induction times as [|t rest IH]; simpl; [lia|].
  destruct (Qle_bool 1 (c - t)); simpl; lia.
Qed.

Lemma prune_all_old c times :
  Forall (fun t => 1 <= c - t) times -> prune c times = [].
Proof.
  induction 1 as [|t rest Ht _ IH]; simpl; [reflexivity|].
  apply Qle_bool_iff in Ht. now rewrite Ht.
Qed.

(** A call that finds fewer entries than the ceiling records its timestamp
    without sleeping. *)
Lemma wait_if_needed_room rl w :
  (Z.of_nat (List.length (request_times rl)) < max_requests_per_second rl)%Z ->
  exists rl' w',
    wait_if_needed (rl, w) = (Return tt, (rl', w'))
    /\ max_requests_per_second rl' = max_requests_per_second rl
    /\ (List.length (request_times rl') <= S (List.length (request_times rl)))%nat
    /\ trace w' = trace w ++ [EvAcquire].
Proof.
  intros Hroom. destruct rl as [m times], w as [clk lg tr gc trc]; simpl in *.
  unfold wait_if_needed, bind, time_time, self, set_self, note; simpl.
  pose proof (prune_length (clk + hd 0 lg) times) as Hlen.
  set (kept := prune (clk + hd 0 lg) times) in *.
  assert ((m <=? Z.of_nat (List.length kept))%Z = false)
    as -> by (apply Z.leb_gt; lia).
  do 2 eexists. split; [reflexivity|]. simpl.
  repeat split. rewrite length_app. simpl. lia.
Qed.

Lemma burst_runs n :
  forall rl w,
    (Z.of_nat (List.length (request_times rl) + n) <= max_requests_per_second rl)%Z ->
    exists recorded rl' w',
      acquire_times n (rl, w) = (Return recorded, (rl', w'))
      /\ List.length recorded = n
      /\ trace w' = trace w ++ repeat EvAcquire n.
Proof.
  induction n as [|n IH]; intros rl w Hroom.
  - exists [], rl, w. simpl. now rewrite app_nil_r.
  - destruct (wait_if_needed_room rl w ltac:(lia)) as (rl1 & w1 & Hstep & Hm & Hlen & Htr).
    destruct (IH rl1 w1) as (later & rl2 & w2 & Hrun & Hl & Htr2).
    { rewrite Hm. lia. }
    exists (last (request_times rl1) 0 :: later), rl2, w2.
    repeat split.
    + simpl. unfold bind at 1. rewrite Hstep.
      unfold bind at 1. unfold self at 1. cbn [fst].
      unfold bind at 1. rewrite Hrun. reflexivity.
    + simpl. now rewrite Hl.
    + rewrite Htr2, Htr, <- app_assoc. reflexivity.
Qed.

(** X1. On a fresh limiter the first [ceiling] calls all return without
    sleeping, however fast they come: a burst up to the ceiling is never
    delayed. *)
Theorem burst_is_not_delayed (ceiling : Z) (w : World) (n : nat) :
  (Z.of_nat n <= ceiling)%Z ->
  exists recorded rl' w',
    acquire_times n (RateLimiter_init ceiling, w) = (Return recorded, (rl', w'))
    /\ List.length recorded = n
    /\ trace w' = trace w ++ repeat EvAcquire n.
Proof.
  intros Hn. apply burst_runs. simpl. exact Hn.
Qed.

Lemma burst_is_not_delayed_witness :
  exists recorded rl' w',
    acquire_times 2 (RateLimiter_init 2, Scenario.burst) = (Return recorded, (rl', w'))
    /\ List.length recorded = 2%nat
    /\ trace w' = trace Scenario.burst ++ repeat EvAcquire 2.
Proof.
  apply (burst_is_not_delayed 2 Scenario.burst 2). simpl. lia.
Defined.

(** X2. A call made when every retained timestamp is at least one second
    older than the clock reading returns without sleeping, and leaves the
    new timestamp as the only entry. *)
Theorem idle_limiter_starts_over (rl : RateLimiter) (w : World) :
  (1 <= max_requests_per_second rl)%Z ->
  Forall (fun t => 1 <= clock w + hd 0 (lags w) - t) (request_times rl) ->
  exists w',
    wait_if_needed (rl, w)
    = (Return tt,
       (mkRateLimiter (max_requests_per_second rl)
          [clock w + hd 0 (lags w) + hd 0 (tl (lags w))], w'))
    /\ trace w' = trace w ++ [EvAcquire]
    /\ clock w' = clock w + hd 0 (lags w) + hd 0 (tl (lags w)).
Proof.
  intros Hc Hold. destruct rl as [m times], w as [clk lg tr gc trc]; simpl in *.
  unfold wait_if_needed, bind, time_time, self, set_self, note; simpl.
  rewrite (prune_all_old _ _ Hold). simpl.
  assert ((m <=? 0)%Z = false) as -> by (apply Z.leb_gt; lia).
  eexists. split; [reflexivity|]. simpl. auto.
Qed.

Lemma idle_limiter_starts_over_witness :
  exists w',
    wait_if_needed (mkRateLimiter 1 [0], mkWorld 0 [3#2] Scenario.unavailable 0 [])
    = (Return tt, (mkRateLimiter 1 [0 + (3#2) + 0], w'))
    /\ trace w' = [] ++ [EvAcquire]
    /\ clock w' = 0 + (3#2) + 0.
Proof.
  apply (idle_limiter_starts_over (mkRateLimiter 1 [0])
           (mkWorld 0 [3#2] Scenario.unavailable 0 [])).
  - simpl. lia.
  - simpl. repeat constructor. discriminate.
Defined.

(** Under the invariant, what the pruning loop keeps at a clock reading
    [c] fits under the ceiling, and lies in the past. *)
Lemma kept_fits ceiling admitted rl w c :
  limiter_inv ceiling admitted rl w -> clock w <= c ->
  (Z.of_nat (List.length (prune c (request_times rl))) <= ceiling)%Z
  /\ Forall (fun t => t <= c) (prune c (request_times rl)).
Proof.
  intros [_ _ Hs Hp _ Hcnt] Hc.
  destruct (prune_split c (request_times rl)) as (gone & Hsplit & _ & Hhd).
  remember (prune c (request_times rl)) as kept eqn:Hkept.
  assert (HsK : StronglySorted Qle kept).
  { apply (sorted_suffix gone). now rewrite <- Hsplit. }
  assert (HpK : Forall (fun t => t <= clock w) kept).
  { rewrite Hsplit in Hp. apply Forall_app in Hp. tauto. }
  split.
  - assert (HinK : Forall (fun t => t <= clock w /\ clock w - t < 1) kept).
    { destruct kept as [|oldest r]; [constructor|].
      inversion HsK as [|? ? _ Hle]; subst.
      inversion HpK as [|? ? Ho Hr]; subst.
      constructor; [split; [exact Ho | lra]|].
      rewrite Forall_forall in *. intros t Ht.
      specialize (Hle t Ht). specialize (Hr t Ht). simpl in *.
      split; [exact Hr | lra]. }
    rewrite <- (count_window_all (clock w) kept HinK).
    rewrite Hsplit, count_window_app in Hcnt. lia.
  - eapply Forall_impl; [|exact HpK]. simpl. intros t Ht. lra.
Qed.

(** One call under the invariant: any sleep is short, and what is retained
    afterwards is at most one entry above the ceiling. *)
Lemma wait_if_needed_step ceiling admitted rl w rl' w' :
  limiter_inv ceiling admitted rl w ->
  wait_if_needed (rl, w) = (Return tt, (rl', w')) ->
  (exists new, trace w' = trace w ++ new /\ short_sleeps new)
  /\ (Z.of_nat (List.length (request_times rl')) <= ceiling + 1)%Z.
Proof.
  intros Hinv.
  pose proof (lags_hd (lags w) (inv_lags _ _ _ _ Hinv)) as Hlag.
  destruct (kept_fits ceiling admitted rl w (clock w + hd 0 (lags w)) Hinv)
    as [Hlen Hpast]; [lra|].
  destruct rl as [m times], w as [clk lg tr gc trc]; simpl in *.
  unfold wait_if_needed, bind, time_time, self, set_self, note; simpl.
  set (c := clk + hd 0 lg) in *.
  set (kept := prune c times) in *.
  destruct (m <=? Z.of_nat (List.length kept))%Z.
  - destruct kept as [|oldest r] eqn:Ekept; [discriminate|].
    inversion Hpast as [|? ? Ho _]; subst.
    destruct (Qltb 0 (1 - (c - oldest))) eqn:Esleep; simpl;
      intros H; injection H as <- <-; simpl; split.
    + exists [EvAcquire; EvSleep (1 - (c - oldest))].
      split; [now rewrite <- app_assoc|].
      repeat constructor; [apply Qltb_true; exact Esleep | lra].
    + rewrite length_app. simpl in *. lia.
    + exists [EvAcquire]. split; [reflexivity | repeat constructor].
    + rewrite length_app. simpl in *. lia.
  - simpl. intros H; injection H as <- <-; simpl; split.
    + exists [EvAcquire]. split; [reflexivity | repeat constructor].
    + rewrite length_app. simpl. lia.
Qed.

(** A run under the invariant, seen through a relation between states
    that every call establishes. *)
Lemma acquire_times_rel ceiling
  (R : RateLimiter * World -> RateLimiter * World -> Prop) :
  (1 <= ceiling)%Z ->
  (forall st, R st st) ->
  (forall a b c, R a b -> R b c -> R a c) ->
  (forall admitted rl w rl' w',
     limiter_inv ceiling admitted rl w ->
     wait_if_needed (rl, w) = (Return tt, (rl', w')) -> R (rl, w) (rl', w')) ->
  forall n admitted rl w,
    limiter_inv ceiling admitted rl w ->
    exists recorded st',
      acquire_times n (rl, w) = (Return recorded, st') /\ R (rl, w) st'.
Proof.
  intros Hc Hrefl Htrans Hstep.
  induction n as [|n IH]; intros admitted rl w Hinv.
  - exists [], (rl, w). auto.
  - destruct (wait_if_needed_keeps ceiling admitted rl w Hc Hinv)
      as (rl1 & w1 & Hcall & Hinv1).
    destruct (IH _ rl1 w1 Hinv1) as (later & st' & Hrun & HR).
    exists (last (request_times rl1) 0 :: later), st'. split.
    + simpl. unfold bind at 1. rewrite Hcall.
      unfold bind at 1. unfold self at 1. cbn [fst].
      unfold bind at 1. rewrite Hrun. destruct st'. reflexivity.
    + eapply Htrans; [|exact HR]. eapply Hstep; eauto.
Qed.

(** X3. On a fresh limiter with a ceiling of at least one, with time that
    never runs backwards, no call ever sleeps longer than one second: every
    sleep in the trace of a run is positive and at most 1. *)
Theorem limiter_sleeps_at_most_a_second (ceiling : Z) (w : World) (n : nat) :
  (1 <= ceiling)%Z ->
  Forall (fun l => 0 <= l) (lags w) ->
  exists recorded rl' w' new,
    acquire_times n (RateLimiter_init ceiling, w) = (Return recorded, (rl', w'))
    /\ trace w' = trace w ++ new
    /\ short_sleeps new.
Proof.
  intros Hc Hlags.
  destruct (acquire_times_rel ceiling
              (fun a b => exists new, trace (snd b) = trace (snd a) ++ new
                                      /\ short_sleeps new) Hc)
    with (n := n) (admitted := @nil Q) (rl := RateLimiter_init ceiling) (w := w)
    as (recorded & [rl' w'] & Hrun & new & Htr & Hshort).
  - intros st. exists []. split; [now rewrite app_nil_r | constructor].
  - intros a b c (n1 & H1 & S1) (n2 & H2 & S2). exists (n1 ++ n2).
    split; [now rewrite H2, H1, app_assoc | apply Forall_app; auto].
  - intros admitted rl0 w0 rl1 w1 Hinv Hcall.
    exact (proj1 (wait_if_needed_step _ _ _ _ _ _ Hinv Hcall)).
  - now apply limiter_inv_init.
  - exists recorded, rl', w', new. auto.
Qed.

Lemma limiter_sleeps_at_most_a_second_witness :
  exists recorded rl' w' new,
    acquire_times 5 (RateLimiter_init 2, Scenario.burst) = (Return recorded, (rl', w'))
    /\ trace w' = trace Scenario.burst ++ new
    /\ short_sleeps new.
Proof.
  apply (limiter_sleeps_at_most_a_second 2 Scenario.burst 5).
  - lia.
  - simpl. repeat constructor; discriminate.
Defined.

(** X4. On a fresh limiter with a ceiling of at least one, with time that
    never runs backwards, [request_times] never holds more than
    [ceiling + 1] entries, however many calls are made. *)
Theorem request_times_stay_bounded (ceiling : Z) (w : World) (n : nat) :
  (1 <= ceiling)%Z ->
  Forall (fun l => 0 <= l) (lags w) ->
  exists recorded rl' w',
    acquire_times n (RateLimiter_init ceiling, w) = (Return recorded, (rl', w'))
    /\ (Z.of_nat (List.length (request_times rl')) <= ceiling + 1)%Z.
Proof.
  intros Hc Hlags.
  destruct (acquire_times_rel ceiling
              (fun a b => b = a
                          \/ (Z.of_nat (List.length (request_times (fst b)))
                              <= ceiling + 1)%Z) Hc)
    with (n := n) (admitted := @nil Q) (rl := RateLimiter_init ceiling) (w := w)
    as (recorded & [rl' w'] & Hrun & HR).
  - intros st. now left.
  - intros a b c Hab [->|Hbc]; [exact Hab | now right].
  - intros admitted rl0 w0 rl1 w1 Hinv Hcall. right.
    exact (proj2 (wait_if_needed_step _ _ _ _ _ _ Hinv Hcall)).
  - now apply limiter_inv_init.
  - exists recorded, rl', w'. split; [exact Hrun|].
    destruct HR as [Heq|Hlen]; [|exact Hlen].
    injection Heq as -> _. simpl. lia.
Qed.

Lemma request_times_stay_bounded_witness :
  exists recorded rl' w',
    acquire_times 5 (RateLimiter_init 2, Scenario.burst) = (Return recorded, (rl', w'))
    /\ (Z.of_nat (List.length (request_times rl')) <= 2 + 1)%Z.
Proof.
  apply (request_times_stay_bounded 2 Scenario.burst 5).
  - lia.
  - simpl. repeat constructor; discriminate.
Defined.

End LimiterBehaviour.

(* ------------------------------------------------------------------ *)
(** ** More on [get_definition] *)

Section LookupBehaviour.

Lemma within_refl st : within 0 st st.
Proof. unfold within. repeat split; lia. Qed.

Lemma within_trans j k a b c :
  within j a b -> within k b c -> within (j + k) a c.
Proof.
  unfold within. intros (H1 & H2 & H3 & H4) (H5 & H6 & H7 & H8).
  repeat split; try congruence; lia.
Qed.

Lemma within_more j k a b : (j <= k)%nat -> within j a b -> within k a b.
Proof. unfold within. intros Hjk (H1 & H2). split; [lia | exact H2]. Qed.

(** Whatever it does, a call of the limiter sends nothing and changes
    neither the configuration nor the transport. *)
Lemma limiter_wait_within st : within 0 st (snd (limiter_wait st)).
Proof.
  destruct st as [[[m times] mr] [clk lg tr gc trc]].
  unfold limiter_wait, wait_if_needed, bind, time_time, self, set_self, note,
    within; simpl.
  destruct (m <=? _)%Z; [|simpl; repeat split; lia].
  destruct (prune _ times) as [|oldest r]; [simpl; repeat split; lia|].
  destruct (Qltb _ _); simpl; repeat split; lia.
Qed.

Lemma retry_loop_within word cleaned_word attempts :
  forall last st,
    within (List.length attempts) st
      (snd (retry_loop attempts word cleaned_word last st)).
Proof.
  induction attempts as [|attempt rest IH]; intros last [svc w].
  - apply within_refl.
  - cbn [retry_loop]. unfold try_except. rewrite attempt_body_eq.
    assert (Hsent : within 1 (svc, w) (svc, sent (request_url cleaned_word) w)).
    { unfold within. simpl. repeat split; lia. }
    assert (Hdone : within (List.length (attempt :: rest)) (svc, w)
                      (svc, sent (request_url cleaned_word) w)).
    { eapply within_more; [|exact Hsent]. simpl. lia. }
    destruct (attempt_result _) as [v|e]; [exact Hdone|].
    destruct e; try exact Hdone.
    destruct (carries_client_error response); [exact Hdone|].
    unfold bind at 1. unfold self at 1. cbn [fst].
    destruct (attempt =? max_retries svc)%Z; [exact Hdone|].
    unfold bind at 1. unfold time_sleep at 1. unfold bind at 1.
    pose proof (limiter_wait_within
                  (svc, slept (inject_Z (2 ^ attempt))
                          (sent (request_url cleaned_word) w))) as Hwait.
    assert (Hslept : within 1 (svc, w)
                       (svc, slept (inject_Z (2 ^ attempt))
                               (sent (request_url cleaned_word) w))).
    { unfold within. simpl. repeat split; lia. }
    destruct (limiter_wait _) as [[u|e] st1]; simpl in Hwait.
    + change (List.length (attempt :: rest)) with (1 + 0 + List.length rest)%nat.
      eapply within_trans; [eapply within_trans; [exact Hslept | exact Hwait]|].
      apply IH.
    + eapply within_more; [|eapply within_trans; [exact Hslept | exact Hwait]].
      simpl. lia.
Qed.

Lemma range_from_length n : forall a, List.length (range_from a n) = n.
Proof. induction n as [|n IH]; intros a; simpl; [reflexivity | now rewrite IH]. Qed.

Lemma get_definition_within word st :
  within (Z.to_nat (max_retries (fst st) + 1)) st (snd (get_definition word st)).
Proof.
  destruct word as [s|]; [|eapply within_more; [|apply within_refl]; lia].
  unfold get_definition.
  destruct (negb (PyStr.nonempty (PyStr.strip s)));
    [eapply within_more; [|apply within_refl]; lia|].
  unfold bind at 1.
  pose proof (limiter_wait_within st) as Hwait.
  destruct (limiter_wait st) as [[u|e] st1]; simpl in Hwait.
  - unfold bind, self. rewrite range_eq.
    pose proof (retry_loop_within s (_clean_word s)
                  (range_from 0 (Z.to_nat (max_retries (fst st1) + 1))) None st1)
      as Hloop.
    rewrite range_from_length in Hloop.
    change (Z.to_nat (max_retries (fst st) + 1))
      with (0 + Z.to_nat (max_retries (fst st) + 1))%nat.
    eapply within_trans; [exact Hwait|].
    destruct Hwait as (_ & <- & _). exact Hloop.
  - eapply within_more; [|exact Hwait]. lia.
Qed.

(** X5. Whatever the word, the state and the transport do, one call of
    [get_definition] sends at most [max_retries + 1] requests (none when
    [max_retries] is negative), and leaves [max_retries], the ceiling and the
    transport as they were. *)
Theorem lookup_requests_bounded (word : option string)
  (svc : DictionaryService) (w : World) :
  (get_calls (snd (snd (get_definition word (svc, w))))
   <= get_calls w + Z.to_nat (max_retries svc + 1))%nat
  /\ (get_calls w <= get_calls (snd (snd (get_definition word (svc, w)))))%nat
  /\ max_retries (fst (snd (get_definition word (svc, w)))) = max_retries svc
  /\ max_requests_per_second
       (rate_limiter (fst (snd (get_definition word (svc, w)))))
     = max_requests_per_second (rate_limiter svc).
Proof.
  destruct (get_definition_within word (svc, w)) as ((H1 & H2) & H3 & H4 & _).
  simpl in *. auto.
Qed.

(** X6. A word that is not blank is looked up by a service with a working
    limiter and [max_retries >= 0].  If the first attempt fails with an
    exception that is not a [RequestException] (raised by the transport, by
    [raise_for_status] or by [json()]), that exception leaves
    [get_definition] as it is, after one request: it is neither retried nor
    wrapped in [DictionaryServiceError]. *)
Theorem foreign_exception_escapes (svc : DictionaryService) (w : World)
  (word : string) (e : exn) :
  PyStr.blank word = false ->
  (1 <= max_requests_per_second (rate_limiter svc))%Z ->
  (0 <= max_retries svc)%Z ->
  attempt_result (transport w (get_calls w) (request_url (_clean_word word)))
  = Raise e ->
  is_request_exception e = false ->
  exists st',
    get_definition (Some word) (svc, w) = (Raise e, st')
    /\ get_calls (snd st') = S (get_calls w).
Proof.
  intros Hword Hc Hmr Hres Hforeign.
  destruct (get_definition_starts svc w word Hword Hc)
    as ([svc0 w0] & Hacq0 & Hstart).
  pose proof (acquired_calls _ _ (request_url (_clean_word word)) Hacq0) as Hsame0.
  destruct Hacq0 as (_ & _ & _ & Hgc0 & _). simpl in Hgc0, Hsame0.
  replace (Z.to_nat (max_retries svc + 1))
    with (S (Z.to_nat (max_retries svc))) in Hstart by lia.
  cbn [range_from retry_loop] in Hstart. unfold try_except in Hstart.
  rewrite attempt_body_eq, Hsame0, Hres in Hstart.
  exists (svc0, sent (request_url (_clean_word word)) w0).
  split; [|simpl; now rewrite Hgc0].
  rewrite Hstart. destruct e; try reflexivity. discriminate.
Qed.

Lemma foreign_exception_escapes_witness :
  exists st',
    get_definition (Some "test")
      (Scenario.service, Scenario.world MoreScenarios.garbled)
    = (Raise (OtherException "ValueError"), st')
    /\ get_calls (snd st') = S (get_calls (Scenario.world MoreScenarios.garbled)).
Proof.
  apply (foreign_exception_escapes Scenario.service
           (Scenario.world MoreScenarios.garbled) "test").
  - reflexivity.
  - simpl. lia.
  - simpl. lia.
  - reflexivity.
  - reflexivity.
Defined.

(** X7. With a negative [max_retries] the loop has no attempt to make: for
    a word that is not blank and a working limiter, [get_definition] calls
    the limiter once, sends no request and raises [DictionaryServiceError]
    with no cause. *)
Theorem negative_retries_send_nothing (svc : DictionaryService) (w : World)
  (word : string) :
  PyStr.blank word = false ->
  (1 <= max_requests_per_second (rate_limiter svc))%Z ->
  (max_retries svc < 0)%Z ->
  exists st',
    get_definition (Some word) (svc, w)
    = (Raise (DictionaryServiceError word (max_retries svc + 1) None), st')
    /\ acquired (svc, w) st'.
Proof.
  intros Hword Hc Hmr.
  destruct (get_definition_starts svc w word Hword Hc) as (st0 & Hacq0 & Hstart).
  replace (Z.to_nat (max_retries svc + 1)) with 0%nat in Hstart by lia.
  exists st0. split; [|exact Hacq0].
  rewrite Hstart. destruct Hacq0 as (Hmr0 & _). destruct st0 as [svc0 w0].
  simpl in *. unfold lookup_failed, bind, self, raise. simpl. now rewrite Hmr0.
Qed.

Lemma negative_retries_send_nothing_witness :
  exists st',
    get_definition (Some "test")
      (MoreScenarios.no_attempts, Scenario.world Scenario.unavailable)
    = (Raise (DictionaryServiceError "test"
                (max_retries MoreScenarios.no_attempts + 1) None), st')
    /\ acquired (MoreScenarios.no_attempts, Scenario.world Scenario.unavailable) st'.
Proof.
  apply (negative_retries_send_nothing MoreScenarios.no_attempts
           (Scenario.world Scenario.unavailable) "test").
  - reflexivity.
  - simpl. lia.
  - simpl. lia.
Defined.

(** X8. A service whose limiter has a ceiling of zero or less and no
    recorded request cannot look anything up: for a word that is not blank
    [get_definition] raises [IndexError] out of the limiter, sends no
    request, and leaves the service as it was, so that every later call does
    the same. *)
Theorem ceiling_below_one_raises (svc : DictionaryService) (w : World)
  (word : string) :
  PyStr.blank word = false ->
  (max_requests_per_second (rate_limiter svc) <= 0)%Z ->
  request_times (rate_limiter svc) = [] ->
  exists w',
    get_definition (Some word) (svc, w) = (Raise IndexError, (svc, w'))
    /\ get_calls w' = get_calls w.
Proof.
  intros Hword Hc Hempty.
  destruct svc as [[m times] mr]. simpl in *. subst times.
  unfold get_definition.
  destruct (PyStr.nonempty (PyStr.strip word)) eqn:Estrip.
  - simpl. unfold bind at 1.
    unfold limiter_wait, wait_if_needed, bind, time_time, self, set_self. simpl.
    assert ((m <=? 0)%Z = true) as -> by (apply Z.leb_le; exact Hc).
    simpl. eexists. split; reflexivity.
  - apply strip_empty_iff in Estrip. congruence.
Qed.

Lemma ceiling_below_one_raises_witness :
  exists w',
    get_definition (Some "test")
      (MoreScenarios.no_room, Scenario.world Scenario.unavailable)
    = (Raise IndexError, (MoreScenarios.no_room, w'))
    /\ get_calls w' = get_calls (Scenario.world Scenario.unavailable).
Proof.
  apply (ceiling_below_one_raises MoreScenarios.no_room
           (Scenario.world Scenario.unavailable) "test").
  - reflexivity.
  - simpl. lia.
  - reflexivity.
Defined.

End LookupBehaviour.

(* ------------------------------------------------------------------ *)
(** ** [_clean_word] and the word a lookup is made for *)

Section CleanWord.

Lemma is_space_lower_char c : PyStr.is_space (PyStr.lower_char c) = PyStr.is_space c.
Proof.
  destruct c as [b0 b1 b2 b3 b4 b5 b6 b7].
  destruct b0, b1, b2, b3, b4, b5, b6, b7; reflexivity.
Qed.

Lemma lower_char_twice c : PyStr.lower_char (PyStr.lower_char c) = PyStr.lower_char c.
Proof.
  destruct c as [b0 b1 b2 b3 b4 b5 b6 b7].
  destruct b0, b1, b2, b3, b4, b5, b6, b7; reflexivity.
Qed.

Lemma lower_twice s : PyStr.lower (PyStr.lower s) = PyStr.lower s.
Proof.
  induction s as [|c r IH]; simpl; [reflexivity|].
  now rewrite lower_char_twice, IH.
Qed.

Lemma lower_lstrip s : PyStr.lower (PyStr.lstrip s) = PyStr.lstrip (PyStr.lower s).
Proof.
  induction s as [|c r IH]; simpl; [reflexivity|].
  rewrite is_space_lower_char. destruct (PyStr.is_space c); [exact IH | reflexivity].
Qed.

Lemma lower_rstrip s : PyStr.lower (PyStr.rstrip s) = PyStr.rstrip (PyStr.lower s).
Proof.
  induction s as [|c r IH]; simpl; [reflexivity|].
  rewrite <- IH, is_space_lower_char.
  destruct (PyStr.rstrip r) as [|a b]; simpl; [|reflexivity].
  destruct (PyStr.is_space c); reflexivity.
Qed.

Lemma lower_strip s : PyStr.lower (PyStr.strip s) = PyStr.strip (PyStr.lower s).
Proof. unfold PyStr.strip. now rewrite lower_rstrip, lower_lstrip. Qed.

Lemma rstrip_twice s : PyStr.rstrip (PyStr.rstrip s) = PyStr.rstrip s.
Proof.
  induction s as [|c r IH]; simpl; [reflexivity|].
  destruct (PyStr.rstrip r) as [|a b] eqn:E.
  - destruct (PyStr.is_space c) eqn:Ec; simpl; [reflexivity | now rewrite Ec].
  - change (PyStr.rstrip (String c (String a b)))
      with (match PyStr.rstrip (String a b) with
            | EmptyString =>
                if PyStr.is_space c then EmptyString else String c EmptyString
            | r' => String c r'
            end).
    now rewrite IH.
Qed.

Lemma rstrip_head c r :
  PyStr.is_space c = false ->
  exists r', PyStr.rstrip (String c r) = String c r'.
Proof.
  intros Hc. simpl. destruct (PyStr.rstrip r); [rewrite Hc|]; eauto.
Qed.

Lemma strip_twice s : PyStr.strip (PyStr.strip s) = PyStr.strip s.
Proof.
  unfold PyStr.strip. pose proof (lstrip_head s) as Hh.
  destruct (PyStr.lstrip s) as [|c r]; [reflexivity|].
  destruct (rstrip_head c r Hh) as (r' & Hr).
  rewrite Hr at 1. simpl PyStr.lstrip. rewrite Hh, <- Hr.
  apply rstrip_twice.
Qed.

(** X9. [_clean_word] is idempotent, and what it returns is already
    lower-case and free of surrounding whitespace. *)
Theorem clean_word_is_idempotent (word : string) :
  _clean_word (_clean_word word) = _clean_word word
  /\ PyStr.lower (_clean_word word) = _clean_word word
  /\ PyStr.strip (_clean_word word) = _clean_word word.
Proof.
  unfold _clean_word. repeat split.
  - now rewrite lower_strip, lower_twice, strip_twice.
  - now rewrite lower_strip, lower_twice.
  - apply strip_twice.
Qed.

(** The loop treats two words with the same cleaned form alike. *)
Lemma retry_loop_same_word w1 w2 cleaned_word attempts :
  forall last st,
    snd (retry_loop attempts w1 cleaned_word last st)
    = snd (retry_loop attempts w2 cleaned_word last st)
    /\ same_but_word w1 w2
         (fst (retry_loop attempts w1 cleaned_word last st))
         (fst (retry_loop attempts w2 cleaned_word last st)).
Proof.
  assert (Hfail : forall last st,
            snd (lookup_failed w1 last st) = snd (lookup_failed w2 last st)
            /\ same_but_word w1 w2 (fst (lookup_failed w1 last st))
                 (fst (lookup_failed w2 last st))).
  { intros last st. split; [reflexivity|]. right. simpl. eauto. }
  induction attempts as [|attempt rest IH]; intros last [svc w].
  - apply Hfail.
  - cbn [retry_loop]. unfold try_except. rewrite attempt_body_eq.
    destruct (attempt_result _) as [v|e]; [split; [reflexivity | now left]|].
    destruct e; try (split; [reflexivity | now left]).
    destruct (carries_client_error response); [apply Hfail|].
    unfold bind, self. cbn [fst].
    destruct (attempt =? max_retries svc)%Z; [apply Hfail|].
    unfold time_sleep.
    destruct (limiter_wait _) as [[u|e] st1]; [apply IH|].
    split; [reflexivity | now left].
Qed.

(** X10. Two words that are not blank and have the same cleaned form (the
    same letters up to case, inside any surrounding whitespace) are looked
    up alike: the same requests are sent, the same state is left, and the
    outcomes are equal, or are the [DictionaryServiceError] of the same
    failure, each naming its own word. *)
Theorem lookup_depends_on_cleaned_word (w1 w2 : string)
  (st : DictionaryService * World) :
  PyStr.blank w1 = false ->
  PyStr.blank w2 = false ->
  _clean_word w1 = _clean_word w2 ->
  snd (get_definition (Some w1) st) = snd (get_definition (Some w2) st)
  /\ same_but_word w1 w2 (fst (get_definition (Some w1) st))
       (fst (get_definition (Some w2) st)).
Proof.
  intros H1 H2 Hclean. unfold get_definition.
  destruct (PyStr.nonempty (PyStr.strip w1)) eqn:E1;
    [|apply strip_empty_iff in E1; congruence].
  destruct (PyStr.nonempty (PyStr.strip w2)) eqn:E2;
    [|apply strip_empty_iff in E2; congruence].
  simpl. rewrite Hclean. unfold bind, self.
  destruct (limiter_wait st) as [[u|e] st1]; [|split; [reflexivity | now left]].
  apply retry_loop_same_word.
Qed.

Lemma lookup_depends_on_cleaned_word_witness :
  snd (get_definition (Some "HELLO")
         (Scenario.service, Scenario.world Scenario.recovers))
  = snd (get_definition (Some " hello ")
           (Scenario.service, Scenario.world Scenario.recovers))
  /\ same_but_word "HELLO" " hello "
       (fst (get_definition (Some "HELLO")
               (Scenario.service, Scenario.world Scenario.recovers)))
       (fst (get_definition (Some " hello ")
               (Scenario.service, Scenario.world Scenario.recovers))).
Proof.
  apply (lookup_depends_on_cleaned_word "HELLO" " hello "
           (Scenario.service, Scenario.world Scenario.recovers));
    reflexivity.
Defined.

End CleanWord.

(* ------------------------------------------------------------------ *)
(** ** More on [get_definitions] *)

Section BatchBehaviour.

(** One turn of the loop, by the outcome of the lookup. *)
Lemma collect_cons word rest definitions st :
  collect (word :: rest) definitions st
  = match get_definition word st with
    | (Return definition, st1) => collect rest (definitions ++ [definition]) st1
    | (Raise (DictionaryServiceError _ _ _), st1) =>
        collect rest (definitions ++ [PNone]) st1
    | (Raise e, st1) => (Raise e, st1)
    end.
Proof.
  cbn [collect]. unfold bind at 1. unfold try_except, bind, ret.
  destruct (get_definition word st) as [[v|e] st1]; [reflexivity|].
  destruct e; reflexivity.
Qed.

Lemma collect_within words :
  forall definitions st,
    within (List.length words * Z.to_nat (max_retries (fst st) + 1)) st
      (snd (collect words definitions st)).
Proof.
  induction words as [|word rest IH]; intros definitions st.
  - apply within_refl.
  - rewrite collect_cons.
    pose proof (get_definition_within word st) as Hword.
    assert (Hstop : within (List.length (word :: rest)
                            * Z.to_nat (max_retries (fst st) + 1)) st
                      (snd (get_definition word st))).
    { eapply within_more; [|exact Hword]. simpl. lia. }
    assert (Hgo : forall definitions',
              within (List.length (word :: rest)
                      * Z.to_nat (max_retries (fst st) + 1)) st
                (snd (collect rest definitions' (snd (get_definition word st))))).
    { intros definitions'.
      change (List.length (word :: rest) * Z.to_nat (max_retries (fst st) + 1))%nat
        with (Z.to_nat (max_retries (fst st) + 1)
              + List.length rest * Z.to_nat (max_retries (fst st) + 1))%nat.
      eapply within_trans; [exact Hword|].
      destruct Hword as (_ & <- & _). apply IH. }
    destruct (get_definition word st) as [[v|e] st1]; simpl in *; [apply Hgo|].
    destruct e; try exact Hstop. apply Hgo.
Qed.

(** X11. Whatever the words, the state and the transport do, a batch of
    [n] words sends at most [n * (max_retries + 1)] requests. *)
Theorem batch_requests_bounded (words : list (option string))
  (svc : DictionaryService) (w : World) :
  (get_calls (snd (snd (get_definitions (WordList words) (svc, w))))
   <= get_calls w + List.length words * Z.to_nat (max_retries svc + 1))%nat.
Proof.
  destruct (collect_within words [] (svc, w)) as ((_ & H) & _).
  exact H.
Qed.

(** The list built so far is only added to. *)
Lemma collect_shift words :
  forall definitions st,
    collect words definitions st
    = match collect words [] st with
      | (Return slots, st') => (Return (definitions ++ slots), st')
      | (Raise e, st') => (Raise e, st')
      end.
Proof.
  induction words as [|word rest IH]; intros definitions st.
  - simpl. unfold ret. now rewrite app_nil_r.
  - rewrite !collect_cons.
    assert (Hgo : forall d st1,
              collect rest (definitions ++ [d]) st1
              = match collect rest ([] ++ [d]) st1 with
                | (Return slots, st') => (Return (definitions ++ slots), st')
                | (Raise e, st') => (Raise e, st')
                end).
    { intros d st1. rewrite (IH (definitions ++ [d])), (IH ([] ++ [d])).
      destruct (collect rest [] st1) as [[slots|e] st2]; [|reflexivity].
      now rewrite <- app_assoc. }
    destruct (get_definition word st) as [[v|e] st1]; [apply Hgo|].
    destruct e; try reflexivity. apply Hgo.
Qed.

(** X12. A batch over [pre ++ post] is the batch over [pre] followed, from
    the state it leaves, by the batch over [post], the two lists of slots
    joined; if either raises, so does the whole, in the same state. *)
Theorem batch_splits (pre post : list (option string))
  (st : DictionaryService * World) :
  get_definitions (WordList (pre ++ post)) st
  = match get_definitions (WordList pre) st with
    | (Return slots1, st1) =>
        match get_definitions (WordList post) st1 with
        | (Return slots2, st2) => (Return (slots1 ++ slots2), st2)
        | (Raise e, st2) => (Raise e, st2)
        end
    | (Raise e, st1) => (Raise e, st1)
    end.
Proof.
  simpl. rewrite collect_app.
  destruct (collect pre [] st) as [[slots1|e] st1]; [|reflexivity].
  apply collect_shift.
Qed.

End BatchBehaviour.

(* ------------------------------------------------------------------ *)
(** ** The exporter's word and definition *)

Section Exporter.

Lemma rstrip_blank s : PyStr.rstrip s <> EmptyString -> PyStr.blank (PyStr.rstrip s) = false.
Proof.
  induction s as [|c r IH]; simpl; [congruence|].
  destruct (PyStr.rstrip r) as [|a b] eqn:E.
  - destruct (PyStr.is_space c) eqn:Ec; [congruence|]. simpl. now rewrite Ec.
  - intros _. change (PyStr.blank (String c (String a b)))
      with (PyStr.is_space c && PyStr.blank (String a b)).
    rewrite IH by discriminate. apply andb_false_r.
Qed.

Lemma squeeze_nonblank b s : PyStr.blank s = false -> squeeze b s <> EmptyString.
Proof.
  revert b. induction s as [|c r IH]; intros b; simpl; [discriminate|].
  destruct (PyStr.is_space c); simpl; [|discriminate].
  intros Hr. destruct b; [now apply IH | discriminate].
Qed.

Lemma squeeze_space b c r :
  PyStr.is_space c = true ->
  squeeze b (String c r)
  = if b then squeeze true r else String " " (squeeze true r).
Proof. intros Hc. simpl. now rewrite Hc. Qed.

Lemma squeeze_char b c r :
  PyStr.is_space c = false ->
  squeeze b (String c r) = String c (squeeze false r).
Proof. intros Hc. simpl. now rewrite Hc. Qed.

Lemma rstrip_cons c r :
  PyStr.rstrip (String c r)
  = match PyStr.rstrip r with
    | EmptyString => if PyStr.is_space c then EmptyString else String c EmptyString
    | String a t => String c (String a t)
    end.
Proof. reflexivity. Qed.

(** Squeezing and stripping on the right commute. *)
Lemma rstrip_squeeze s :
  forall b, PyStr.rstrip (squeeze b s) = squeeze b (PyStr.rstrip s).
Proof.
  induction s as [|c r IH]; intros b; [reflexivity|].
  assert (Hne : forall b' a t,
            PyStr.rstrip r = String a t -> squeeze b' (String a t) <> EmptyString).
  { intros b' a t Er. apply squeeze_nonblank. rewrite <- Er.
    apply rstrip_blank. rewrite Er. discriminate. }
  rewrite (rstrip_cons c r).
  destruct (PyStr.is_space c) eqn:Ec.
  - rewrite (squeeze_space b c r Ec). destruct b.
    + rewrite IH. destruct (PyStr.rstrip r) as [|a t]; [reflexivity|].
      now rewrite (squeeze_space true c _ Ec).
    + rewrite rstrip_cons, IH.
      destruct (PyStr.rstrip r) as [|a t] eqn:Er; [reflexivity|].
      rewrite (squeeze_space false c _ Ec).
      specialize (Hne true a t eq_refl).
      destruct (squeeze true (String a t)); [congruence | reflexivity].
  - rewrite (squeeze_char b c r Ec), rstrip_cons, IH, Ec.
    destruct (PyStr.rstrip r) as [|a t] eqn:Er.
    + now rewrite (squeeze_char b c _ Ec).
    + rewrite (squeeze_char b c _ Ec).
      specialize (Hne false a t eq_refl).
      destruct (squeeze false (String a t)); [congruence | reflexivity].
Qed.

Lemma squeeze_twice s : forall b, squeeze b (squeeze b s) = squeeze b s.
Proof.
  induction s as [|c r IH]; intros b; [reflexivity|].
  cbn [squeeze]. destruct (PyStr.is_space c) eqn:Ec.
  - destruct b; [apply IH|]. cbn [squeeze]. simpl. now rewrite IH.
  - cbn [squeeze]. now rewrite Ec, IH.
Qed.

Lemma squeeze_single_spaced s : forall b, single_spaced b (squeeze b s) = true.
Proof.
  induction s as [|c r IH]; intros b; [reflexivity|].
  cbn [squeeze]. destruct (PyStr.is_space c) eqn:Ec.
  - destruct b; [apply IH|]. cbn [single_spaced]. simpl. apply IH.
  - cbn [single_spaced]. rewrite Ec. apply IH.
Qed.

(** What [word.strip()] returns: nothing, or a string that starts with a
    character that is no whitespace and that stripping leaves alone. *)
Lemma strip_shape s :
  PyStr.strip s = EmptyString /\ PyStr.blank s = true
  \/ exists c r, PyStr.strip s = String c r
                 /\ PyStr.is_space c = false
                 /\ PyStr.rstrip (String c r) = String c r
                 /\ PyStr.blank s = false.
Proof.
  unfold PyStr.strip. pose proof (lstrip_head s) as Hh.
  destruct (PyStr.lstrip s) as [|c r] eqn:El.
  - left. auto.
  - right. destruct (rstrip_head c r Hh) as (r' & Hr).
    exists c, r'. rewrite Hr. repeat split; [exact Hh | |].
    + rewrite <- Hr. apply rstrip_twice.
    + destruct (PyStr.blank s) eqn:Eb; [|reflexivity].
      rewrite (lstrip_blank s Eb) in El. discriminate.
Qed.

Lemma csv_word_blank word :
  PyStr.blank (_clean_word_for_csv word) = PyStr.blank word.
Proof.
  unfold _clean_word_for_csv.
  destruct (strip_shape word) as [[-> ->]|(c & r & -> & Hc & _ & ->)];
    [reflexivity|].
  rewrite (squeeze_char false c r Hc). simpl. now rewrite Hc.
Qed.

(** X13. What [_clean_word_for_csv] returns needs no further cleaning:
    cleaning it again changes nothing, it has no surrounding whitespace, its
    only whitespace is single spaces between other characters, and it is
    blank only if the word was. *)
Theorem csv_word_is_clean (word : string) :
  _clean_word_for_csv (_clean_word_for_csv word) = _clean_word_for_csv word
  /\ PyStr.strip (_clean_word_for_csv word) = _clean_word_for_csv word
  /\ single_spaced false (_clean_word_for_csv word) = true
  /\ PyStr.blank (_clean_word_for_csv word) = PyStr.blank word.
Proof.
  assert (Hstrip : PyStr.strip (_clean_word_for_csv word) = _clean_word_for_csv word).
  { unfold _clean_word_for_csv.
    destruct (strip_shape word) as [[-> _]|(c & r & -> & Hc & Hr & _)];
      [reflexivity|].
    unfold PyStr.strip.
    assert (Hl : PyStr.lstrip (squeeze false (String c r)) = squeeze false (String c r)).
    { cbn [squeeze]. rewrite Hc. simpl. now rewrite Hc. }
    now rewrite Hl, rstrip_squeeze, Hr. }
  repeat split.
  - unfold _clean_word_for_csv at 1. rewrite Hstrip.
    unfold _clean_word_for_csv. apply squeeze_twice.
  - exact Hstrip.
  - apply squeeze_single_spaced.
  - apply csv_word_blank.
Qed.

Lemma validate_each_accepts words :
  validate_each words = Return tt <-> forallb is_word words = true.
Proof.
  induction words as [|v rest IH]; simpl; [tauto|].
  destruct v; simpl; try (split; discriminate).
  destruct (PyStr.nonempty (PyStr.strip s)) eqn:Es; simpl.
  - destruct (PyStr.blank s) eqn:Eb; [|exact IH].
    apply strip_empty_iff in Eb. congruence.
  - apply strip_empty_iff in Es. rewrite Es. simpl. split; discriminate.
Qed.

Lemma validate_each_raises words e :
  validate_each words = Raise e -> exists msg, e = ValueError msg.
Proof.
  induction words as [|v rest IH]; simpl; [discriminate|].
  destruct v; try (intros H; injection H as <-; eauto).
  destruct (negb (PyStr.nonempty (PyStr.strip s)));
    [intros H; injection H as <-; eauto | exact IH].
Qed.

(** X14. [_validate_words] returns for exactly the lists all of whose
    elements are strings that are not blank; for anything else it raises,
    and what it raises is a [ValueError]. *)
Theorem validate_words_accepts (words : pyval) :
  (_validate_words words = Return tt
   <-> exists l, words = PList l /\ forallb is_word l = true)
  /\ (forall e, _validate_words words = Raise e -> exists msg, e = ValueError msg).
Proof.
  split.
  - split.
    + destruct words; simpl; try discriminate.
      intros H. exists l. split; [reflexivity | now apply validate_each_accepts].
    + intros (l & -> & Hl). simpl. now apply validate_each_accepts.
  - destruct words; simpl; try (intros e H; injection H as <-; eauto).
    intros e. apply validate_each_raises.
Qed.

(** The cleaning of the test suite. *)
Example clean_word_for_csv_examples :
  _clean_word_for_csv "  hello  " = "hello"
  /\ _clean_word_for_csv "hello world" = "hello world"
  /\ _clean_word_for_csv (String "h" (String "i" (String "010" (String "009" "yo"))))
     = "hi yo".
Proof. repeat split. Qed.

(** X15. For a word that is not blank, an exporter whose service (if it
    has one) has a working limiter, and a transport whose failures are
    [RequestException]s, the row the export loop builds is never empty: the
    cleaned word is not blank, and [_get_definition] of it returns (it does
    not raise) a value that is truthy, be it the definition found or one of
    the fallback texts.  The exporter keeps its settings, so the same holds
    for the next row. *)
Theorem csv_row_is_never_empty (exporter : CSVExporter) (w : World) (word : string) :
  PyStr.blank word = false ->
  (forall svc, dictionary_service exporter = Some svc ->
               (1 <= max_requests_per_second (rate_limiter svc))%Z) ->
  (forall n url, tame (transport w n url)) ->
  PyStr.blank (_clean_word_for_csv word) = false
  /\ exists definition exporter' w',
       _get_definition (_clean_word_for_csv word) (exporter, w)
       = (Return definition, (exporter', w'))
       /\ Py.truthy definition = true
       /\ use_dictionary exporter' = use_dictionary exporter
       /\ output_dir exporter' = output_dir exporter
       /\ (forall svc', dictionary_service exporter' = Some svc' ->
                        (1 <= max_requests_per_second (rate_limiter svc'))%Z)
       /\ transport w' = transport w.
Proof.
  intros Hword Hc Htame.
  assert (Hclean : PyStr.blank (_clean_word_for_csv word) = false)
    by now rewrite csv_word_blank.
  split; [exact Hclean|].
  set (cleaned := _clean_word_for_csv word) in *.
  unfold _get_definition.
  destruct (dictionary_service exporter) as [svc|] eqn:Esvc.
  - destruct (use_dictionary exporter) eqn:Euse; simpl negb; cbv iota.
    + specialize (Hc svc eq_refl).
      destruct (get_definition_survivable (Some cleaned) svc w Hclean Hc Htame)
        as (Hok & Htr & Hmx).
      destruct (get_definition (Some cleaned) (svc, w)) as [[d|e] [svc' w']];
        simpl in Hok, Htr, Hmx.
      * do 3 eexists. split; [reflexivity|]. simpl.
        repeat split; auto.
        -- destruct (Py.truthy d) eqn:Ed; [exact Ed | reflexivity].
        -- intros svc'' H. injection H as <-. now rewrite Hmx.
      * destruct e; simpl in Hok; try contradiction.
        do 3 eexists. split; [reflexivity|]. simpl.
        repeat split; auto.
        intros svc'' H. injection H as <-. now rewrite Hmx.
    + do 3 eexists. split; [reflexivity|]. simpl.
      repeat split; auto. intros svc' H. apply Hc. congruence.
  - do 3 eexists. split; [reflexivity|]. simpl.
    repeat split; auto. intros svc' H. congruence.
Qed.

Lemma csv_row_is_never_empty_witness :
  PyStr.blank (_clean_word_for_csv " hello ") = false
  /\ exists definition exporter' w',
       _get_definition (_clean_word_for_csv " hello ")
         (CSVExporter_init None true "/tmp", Scenario.world Scenario.not_found)
       = (Return definition, (exporter', w'))
       /\ Py.truthy definition = true
       /\ use_dictionary exporter'
          = use_dictionary (CSVExporter_init None true "/tmp")
       /\ output_dir exporter' = output_dir (CSVExporter_init None true "/tmp")
       /\ (forall svc', dictionary_service exporter' = Some svc' ->
                        (1 <= max_requests_per_second (rate_limiter svc'))%Z)
       /\ transport w' = transport (Scenario.world Scenario.not_found).
Proof.
  apply (csv_row_is_never_empty (CSVExporter_init None true "/tmp")
           (Scenario.world Scenario.not_found) " hello ").
  - reflexivity.
  - intros svc H. injection H as <-. simpl. lia.
  - intros n url. exact I.
Defined.

End Exporter.

(* ------------------------------------------------------------------ *)
(** ** The answer of the first attempt, and the order of calls *)

Section Answers.

(** X16. Only the first entry of a body is consulted: whatever follows it
    in the list, the extraction is that of the first entry alone, even when
    the first entry has no definition and a later one has. *)
Theorem extraction_reads_first_entry_only (entry : pyval) (others : list pyval) :
  _extract_definition (PList (entry :: others)) = _extract_definition (PList [entry]).
Proof.
  rewrite !extract_definition_path. unfold definition_path, first_object.
  destruct entry; reflexivity.
Qed.

(** X17. A word that is not blank is looked up by a service with a working
    limiter and [max_retries >= 0].  If the first request is answered with a
    status outside 400..599 (2xx, but also 1xx and 3xx) and a body that
    [json()] decodes to [data], then [get_definition] returns what
    [_extract_definition] makes of [data], [None] included, after one
    limiter call, one request and no sleep. *)
Theorem first_answer_is_returned (svc : DictionaryService) (w : World)
  (word : string) (status : Z) (reason : string) (data : pyval) :
  let url := request_url (_clean_word word) in
  PyStr.blank word = false ->
  (1 <= max_requests_per_second (rate_limiter svc))%Z ->
  (0 <= max_retries svc)%Z ->
  (status < 400 \/ 600 <= status)%Z ->
  transport w (get_calls w) url
  = GetReturns (http_response status reason (Return data)) ->
  exists st' acq,
    get_definition (Some word) (svc, w) = (_extract_definition data, st')
    /\ get_calls (snd st') = S (get_calls w)
    /\ limiter_trace acq
    /\ trace (snd st') = trace w ++ acq ++ [EvGet url].
Proof.
  intros url Hword Hc Hmr Hst Hget.
  destruct (first_attempt_decides svc w word Hword Hc Hmr)
    as (svc0 & w0 & acq & Hacq & Htrace & Hcalls & _ & Hreturns & _).
  exists (svc0, sent url w0), acq.
  split; [|auto].
  rewrite (extract_definition_path data).
  apply Hreturns. fold url. rewrite Hget, <- (extract_definition_path data).
  unfold attempt_result, http_response. simpl.
  assert ((status =? 404)%Z = false) as -> by lia.
  assert (((400 <=? status) && (status <? 600))%Z = false) as -> by lia.
  reflexivity.
Qed.

Lemma first_answer_is_returned_witness :
  exists st' acq,
    get_definition (Some "Hello")
      (Scenario.service,
       Scenario.world (fun _ _ =>
         GetReturns (http_response 200 "OK" (Return Scenario.test_definition))))
    = (_extract_definition Scenario.test_definition, st')
    /\ get_calls (snd st') = 1%nat
    /\ limiter_trace acq
    /\ trace (snd st') = [] ++ acq ++ [EvGet (request_url (_clean_word "Hello"))].
Proof.
  apply (first_answer_is_returned Scenario.service
           (Scenario.world (fun _ _ =>
              GetReturns (http_response 200 "OK" (Return Scenario.test_definition))))
           "Hello" 200 "OK" Scenario.test_definition).
  - reflexivity.
  - simpl. lia.
  - simpl. lia.
  - lia.
  - reflexivity.
Defined.

Lemma gated_app t1 : forall allowed t2,
  gated allowed (t1 ++ t2) = gated allowed t1 && gated (gate_after allowed t1) t2.
Proof.
  induction t1 as [|ev t1 IH]; intros allowed t2; simpl; [reflexivity|].
  destruct ev; rewrite IH; [reflexivity | reflexivity | apply andb_assoc].
Qed.

Lemma gate_after_app t1 : forall allowed t2,
  gate_after allowed (t1 ++ t2) = gate_after (gate_after allowed t1) t2.
Proof.
  induction t1 as [|ev t1 IH]; intros allowed t2; simpl; [reflexivity|].
  destruct ev; apply IH.
Qed.

(** A call of the limiter, however it ends, sends nothing and allows the
    next request. *)
Lemma limiter_wait_gate st :
  exists new,
    trace (snd (snd (limiter_wait st))) = trace (snd st) ++ new
    /\ (forall allowed, gated allowed new = true)
    /\ (forall allowed, gate_after allowed new = true).
Proof.
  destruct st as [[[m times] mr] [clk lg tr gc trc]].
  unfold limiter_wait, wait_if_needed, bind, time_time, self, set_self, note; simpl.
  destruct (m <=? _)%Z;
    [|exists [EvAcquire]; simpl; auto].
  destruct (prune _ times) as [|oldest r]; [exists [EvAcquire]; simpl; auto|].
  destruct (Qltb _ _); simpl.
  - eexists [EvAcquire; EvSleep _]. rewrite <- app_assoc. simpl. auto.
  - exists [EvAcquire]. auto.
Qed.

Lemma retry_loop_gate word cleaned_word attempts :
  forall last st,
    exists new,
      trace (snd (snd (retry_loop attempts word cleaned_word last st)))
      = trace (snd st) ++ new
      /\ gated true new = true.
Proof.
  induction attempts as [|attempt rest IH]; intros last [svc w].
  - exists []. simpl. now rewrite app_nil_r.
  - cbn [retry_loop]. unfold try_except. rewrite attempt_body_eq.
    assert (Hdone : exists new,
              trace (sent (request_url cleaned_word) w) = trace w ++ new
              /\ gated true new = true).
    { exists [EvGet (request_url cleaned_word)]. auto. }
    destruct (attempt_result _) as [v|e]; [exact Hdone|].
    destruct e; try exact Hdone.
    destruct (carries_client_error response); [exact Hdone|].
    unfold bind, self. cbn [fst].
    destruct (attempt =? max_retries svc)%Z; [exact Hdone|].
    unfold time_sleep.
    destruct (limiter_wait_gate
                (svc, slept (inject_Z (2 ^ attempt)) (sent (request_url cleaned_word) w)))
      as (acq & Hacq & Hg & Ha).
    destruct (limiter_wait _) as [[u|e] st1]; simpl in Hacq.
    + destruct (IH (Some (RequestException msg response)) st1) as (new & Hnew & Hgn).
      exists ([EvGet (request_url cleaned_word); EvSleep (inject_Z (2 ^ attempt))]
              ++ acq ++ new).
      split.
      * rewrite Hnew, Hacq. simpl. now rewrite <- !app_assoc.
      * simpl. now rewrite gated_app, Hg, Ha, Hgn.
    + exists ([EvGet (request_url cleaned_word); EvSleep (inject_Z (2 ^ attempt))]
              ++ acq).
      split.
      * simpl. rewrite Hacq. simpl. now rewrite <- !app_assoc.
      * simpl. apply Hg.
Qed.

(** A lookup, however it ends, adds a trace in which every request has a
    limiter call of its own before it. *)
Lemma get_definition_gate word st :
  exists new,
    trace (snd (snd (get_definition word st))) = trace (snd st) ++ new
    /\ gated false new = true.
Proof.
  assert (Hnone : exists new, trace (snd st) = trace (snd st) ++ new
                              /\ gated false new = true).
  { exists []. now rewrite app_nil_r. }
  destruct word as [s|]; [|exact Hnone].
  unfold get_definition.
  destruct (negb (PyStr.nonempty (PyStr.strip s))); [exact Hnone|].
  unfold bind, self.
  destruct (limiter_wait_gate st) as (acq & Hacq & Hg & Ha).
  destruct (limiter_wait st) as [[u|e] st1]; simpl in Hacq.
  - destruct (retry_loop_gate s (_clean_word s)
                (range (max_retries (fst st1) + 1)) None st1) as (new & Hnew & Hgn).
    exists (acq ++ new). split.
    + now rewrite Hnew, Hacq, app_assoc.
    + now rewrite gated_app, Hg, Ha, Hgn.
  - exists acq. split; [exact Hacq | apply Hg].
Qed.

(** X18. Whatever the word, the state and the transport do, [get_definition]
    never sends a request without having called the limiter since its
    previous request: in what it adds to the trace, every [session.get]
    comes after a [wait_if_needed] of its own. *)
Theorem every_request_is_gated (word : option string)
  (st : DictionaryService * World) :
  exists new,
    trace (snd (snd (get_definition word st))) = trace (snd st) ++ new
    /\ gated false new = true.
Proof. apply get_definition_gate. Qed.

Lemma gated_more t : forall allowed,
  gated false t = true -> gated allowed t = true.
Proof.
  induction t as [|ev t IH]; intros allowed; simpl; [reflexivity|].
  destruct ev; auto. discriminate.
Qed.

Lemma collect_gate words :
  forall definitions st,
    exists new,
      trace (snd (snd (collect words definitions st))) = trace (snd st) ++ new
      /\ gated false new = true.
Proof.
  induction words as [|word rest IH]; intros definitions st.
  - exists []. simpl. now rewrite app_nil_r.
  - rewrite collect_cons.
    destruct (get_definition_gate word st) as (new1 & H1 & G1).
    assert (Hgo : forall definitions',
              exists new,
                trace (snd (snd (collect rest definitions'
                                   (snd (get_definition word st)))))
                = trace (snd st) ++ new
                /\ gated false new = true).
    { intros definitions'.
      destruct (IH definitions' (snd (get_definition word st))) as (new2 & H2 & G2).
      exists (new1 ++ new2). split; [now rewrite H2, H1, app_assoc|].
      rewrite gated_app, G1. simpl. now apply gated_more. }
    destruct (get_definition word st) as [[v|e] st1]; simpl in *; [apply Hgo|].
    destruct e; try solve [exists new1; auto]. apply Hgo.
Qed.

(** X19. The same holds for a whole batch: whatever the words and the
    transport do, every request [get_definitions] sends comes after a
    limiter call of its own, across the words as well as within one. *)
Theorem batch_requests_are_gated (words : list (option string))
  (st : DictionaryService * World) :
  exists new,
    trace (snd (snd (get_definitions (WordList words) st))) = trace (snd st) ++ new
    /\ gated false new = true.
Proof. apply collect_gate. Qed.

End Answers.
